(** * Bergson scheduler: a shallow embedding of [src/js/scheduler.js]

    The scheduler keeps a priority queue of "score event specifications"
    (plain JavaScript objects, mutated in place and shared by reference
    between the caller, the queue and the callbacks) and fires their
    callbacks when the clock reaches their priority.

    The embedding keeps that shape:
    - JavaScript numbers are [num]: exact rationals extended with
      [+Infinity], [-Infinity] and [NaN].  Rounding and the sign of zero
      are not represented; every comparison with [NaN] is false, as in
      JavaScript.  The analysis of the drain loop on [settled] queues
      does not derive from the sign of an interval that the sum of a time
      and the interval is later than the time: it takes the comparison of
      the computed values as a hypothesis.
    - event specifications live in a heap [gmap ref eventSpec]; the queue
      holds references, so a mutation of a queued object is seen through
      the queue, as in the source.
    - a callback is opaque user code: its invocation is recorded in a
      trace, and what it may do to the scheduler re-entrantly is given as
      a script of API calls.
    - exceptions carry the state that was reached when they were thrown
      (JavaScript rolls nothing back); loops and re-entrant calls are
      bounded by fuel. *)

From Stdlib Require Import QArith Lqa.
From stdpp Require Import base option list gmap strings.

(** ** JavaScript numbers *)

Inductive num : Type :=
| Fin (q : Q)
| PInf
| NInf
| NaN.

Definition is_nan (a : num) : bool :=
  match a with NaN => true | _ => false end.

Definition is_fin (a : num) : bool :=
  match a with Fin _ => true | _ => false end.

Definition Qsign_pos (q : Q) : bool := negb (Qle_bool q 0).
Definition Qsign_neg (q : Q) : bool := negb (Qle_bool 0 q).

Definition num_add (a b : num) : num :=
  match a, b with
  | NaN, _ | _, NaN => NaN
  | Fin x, Fin y => Fin (x + y)
  | PInf, NInf | NInf, PInf => NaN
  | PInf, _ | _, PInf => PInf
  | NInf, _ | _, NInf => NInf
  end.

(** An infinity times a finite factor: the sign of the product, and
    [NaN] when the factor is zero. *)
Definition inf_times (pos_inf : bool) (q : Q) : num :=
  if Qsign_pos q then (if pos_inf then PInf else NInf)
  else if Qsign_neg q then (if pos_inf then NInf else PInf)
  else NaN.

Definition num_mul (a b : num) : num :=
  match a, b with
  | NaN, _ | _, NaN => NaN
  | Fin x, Fin y => Fin (x * y)
  | PInf, Fin y | Fin y, PInf => inf_times true y
  | NInf, Fin y | Fin y, NInf => inf_times false y
  | PInf, PInf | NInf, NInf => PInf
  | PInf, NInf | NInf, PInf => NInf
  end.

(** [a / b]: a finite non-zero numerator over zero is an infinity,
    zero over zero is [NaN], anything finite over an infinity is zero. *)
Definition num_div (a b : num) : num :=
  match a, b with
  | NaN, _ | _, NaN => NaN
  | Fin x, Fin y =>
      if Qeq_bool y 0 then inf_times true x else Fin (x / y)
  | Fin _, (PInf | NInf) => Fin 0
  | PInf, Fin y => if Qsign_neg y then NInf else PInf
  | NInf, Fin y => if Qsign_neg y then PInf else NInf
  | (PInf | NInf), (PInf | NInf) => NaN
  end.

(** [a <= b] *)
Definition num_leb (a b : num) : bool :=
  match a, b with
  | NaN, _ | _, NaN => false
  | Fin x, Fin y => Qle_bool x y
  | NInf, _ => true
  | _, PInf => true
  | _, _ => false
  end.

(** [a < b] *)
Definition num_ltb (a b : num) : bool :=
  negb (is_nan a) && negb (is_nan b) && negb (num_leb b a).

(** [a > b] *)
Definition num_gtb (a b : num) : bool := num_ltb b a.

(** A JavaScript value read where a number is expected: [None] stands
    for a value whose [typeof] is not ["number"] (an absent field is
    [undefined]); used in arithmetic or in a comparison it is [NaN]. *)
Definition to_num (v : option num) : num := default NaN v.

(** A strictly positive number, [+Infinity] included. *)
Definition num_pos (a : num) : bool :=
  match a with
  | Fin q => Qsign_pos q
  | PInf => true
  | _ => false
  end.

(** ** Score event specifications *)

Abbreviation ref := nat.

(** [eventSpec.type]: a falsy value, ["once"], ["repeat"], or any other
    truthy value. *)
Inductive evtype : Type := TUnset | TOnce | TRepeat | TOther.

Global Instance evtype_eq_dec : EqDecision evtype.
Proof. solve_decision. Defined.

(** A callback receives [(now, scoreEvent)]: the event specification it
    names is either the one it was invoked for, or another object. *)
Inductive target : Type :=
| Self
| Obj (r : ref).

Definition resolve (self : ref) (t : target) : ref :=
  match t with
  | Self => self
  | Obj r => r
  end.

(** What a callback does to the scheduler while it runs. *)
Inductive action : Type :=
| ActSchedule (t : target)
| ActClear (t : target)
| ActClearAll
| ActSetTimeScale (v : num).

Record eventSpec : Type := EventSpec {
  type : evtype;
  time : option num;
  freq : option num;
  end_ : option num;
  callback : option (list action);   (* [None]: not a function *)
  scheduledAt : option num;
  priority : option num;
  interval : option num
}.

Definition set_type (v : evtype) (e : eventSpec) : eventSpec :=
  {| type := v; time := time e; freq := freq e; end_ := end_ e;
     callback := callback e; scheduledAt := scheduledAt e;
     priority := priority e; interval := interval e |}.

Definition set_time (v : option num) (e : eventSpec) : eventSpec :=
  {| type := type e; time := v; freq := freq e; end_ := end_ e;
     callback := callback e; scheduledAt := scheduledAt e;
     priority := priority e; interval := interval e |}.

Definition set_end (v : option num) (e : eventSpec) : eventSpec :=
  {| type := type e; time := time e; freq := freq e; end_ := v;
     callback := callback e; scheduledAt := scheduledAt e;
     priority := priority e; interval := interval e |}.

Definition set_scheduledAt (v : option num) (e : eventSpec) : eventSpec :=
  {| type := type e; time := time e; freq := freq e; end_ := end_ e;
     callback := callback e; scheduledAt := v;
     priority := priority e; interval := interval e |}.

Definition set_priority (v : option num) (e : eventSpec) : eventSpec :=
  {| type := type e; time := time e; freq := freq e; end_ := end_ e;
     callback := callback e; scheduledAt := scheduledAt e;
     priority := v; interval := interval e |}.

Definition set_interval (v : option num) (e : eventSpec) : eventSpec :=
  {| type := type e; time := time e; freq := freq e; end_ := end_ e;
     callback := callback e; scheduledAt := scheduledAt e;
     priority := priority e; interval := v |}.

(** ** Scheduler state

    [heap] holds the event specification objects; [queue] is
    [that.queue.items]; [timeScale] is [that.model.timeScale]; [clock] is
    [that.clock.time]; [trace] records every callback invocation with the
    [now] it received, oldest first. *)
Record scheduler : Type := Scheduler {
  heap : gmap ref eventSpec;
  queue : list ref;
  timeScale : num;
  clock : num;
  trace : list (ref * num)
}.

Definition set_heap (h : gmap ref eventSpec) (st : scheduler) : scheduler :=
  {| heap := h; queue := queue st; timeScale := timeScale st;
     clock := clock st; trace := trace st |}.

Definition set_queue (q : list ref) (st : scheduler) : scheduler :=
  {| heap := heap st; queue := q; timeScale := timeScale st;
     clock := clock st; trace := trace st |}.

Definition set_timeScale (v : num) (st : scheduler) : scheduler :=
  {| heap := heap st; queue := queue st; timeScale := v;
     clock := clock st; trace := trace st |}.

Definition set_clock (v : num) (st : scheduler) : scheduler :=
  {| heap := heap st; queue := queue st; timeScale := timeScale st;
     clock := v; trace := trace st |}.

Definition set_trace (t : list (ref * num)) (st : scheduler) : scheduler :=
  {| heap := heap st; queue := queue st; timeScale := timeScale st;
     clock := clock st; trace := t |}.

(** [item.priority] read through a reference. *)
Definition item_priority (h : gmap ref eventSpec) (r : ref) : num :=
  match h !! r with
  | Some e => to_num (priority e)
  | None => NaN
  end.

(** The times at which the callback of [r] has been invoked. *)
Definition fired (st : scheduler) (r : ref) : list num :=
  (filter (λ ev, ev.1 = r) (trace st)).*2.

(** ** Priority queue *)

Module PriorityQueue.

(** The item of least priority among [best :: l], the earliest one among
    equals. *)
Fixpoint least (pr : ref → num) (best : ref) (l : list ref) : ref :=
  match l with
  | [] => best
  | x :: l' => least pr (if num_ltb (pr x) (pr best) then x else best) l'
  end.

(** Modelled from the spec: [berg.priorityQueue().peek] is missing from
    the sources; "returns the minimum-priority item without removing it,
    or empty if none". *)
Definition peek (pr : ref → num) (items : list ref) : option ref :=
  match items with
  | [] => None
  | x :: l => Some (least pr x l)
  end.

(** Modelled from the spec: [berg.priorityQueue().remove] is missing from
    the sources; "removes a specific previously-pushed item by identity
    wherever it sits in the structure", and nothing when it is absent. *)
Fixpoint remove (r : ref) (items : list ref) : list ref :=
  match items with
  | [] => []
  | x :: l => if decide (x = r) then l else x :: remove r l
  end.

(** Modelled from the spec: [berg.priorityQueue().pop] is missing from
    the sources; "removes and returns the minimum-priority item". *)
Definition pop (pr : ref → num) (items : list ref) : list ref :=
  match peek pr items with
  | Some r => remove r items
  | None => items
  end.

(** Modelled from the spec: [berg.priorityQueue().push] is missing from
    the sources; "item becomes owned by the queue". *)
Definition push (r : ref) (items : list ref) : list ref := items ++ [r].

(** Modelled from the spec: [berg.priorityQueue().clear] is missing from
    the sources; "empties the structure". *)
Definition clear (items : list ref) : list ref := [].

End PriorityQueue.

(** ** Outcomes: return, exception, or fuel exhausted *)

Inductive error : Type :=
| Error (message : string) (subject : ref)   (* [throw new Error(message + ...)] *)
| TypeError (subject : ref).                 (* calling what is not a function *)

Inductive outcome (A : Type) : Type :=
| Returned (a : A) (st : scheduler)
| Thrown (e : error) (st : scheduler)
| OutOfFuel.

Arguments Returned {A} a st.
Arguments Thrown {A} e st.
Arguments OutOfFuel {A}.

(** ** The scheduler, function by function *)

Definition calcPriority (baseTime timeOffset timeScale : num) : num :=
  num_add baseTime (num_mul timeOffset timeScale).

(** [item.priority = calcPriority(item.scheduledAt, item.time, timeScale)] *)
Definition rescale (ts : num) (item : eventSpec) : eventSpec :=
  set_priority
    (Some (calcPriority (to_num (scheduledAt item)) (to_num (time item)) ts))
    item.

Definition scaleEventTimes (ts : num) (st : scheduler) : scheduler :=
  set_heap (foldl (λ h r, alter (rescale ts) r h) (heap st) (queue st)) st.

Definition expandRepeatingEventSpec (now : num) (e : eventSpec) : eventSpec :=
  let e1 := match time e with
            | Some _ => e
            | None => set_time (Some (Fin 0)) e
            end in
  let e2 := set_interval (Some (num_div (Fin 1) (to_num (freq e1)))) e1 in
  set_end (Some (match end_ e2 with
                 | None => PInf
                 | Some v => num_add v now
                 end)) e2.

Definition validateEventSpec (e : eventSpec) : option string :=
  if bool_decide (callback e = None) then
    Some "No callback was specified for scheduled event: "%string
  else if bool_decide (type e = TRepeat) && bool_decide (freq e = None) then
    Some "No freq was specified for scheduled event: "%string
  else if bool_decide (time e = None) then
    Some "No time was specified for scheduled event: "%string
  else None.

(** The second half of [evaluateScoreEvent]: "If it's a repeating event,
    queue it back up." *)
Definition requeue (scoreEvent : ref) (now ts : num) (st : scheduler)
  : scheduler :=
  match heap st !! scoreEvent with
  | Some e =>
      if bool_decide (type e = TRepeat) && num_gtb (to_num (end_ e)) now then
        let e' := set_priority
                    (Some (calcPriority now (to_num (interval e)) ts)) e in
        set_queue (PriorityQueue.push scoreEvent (queue st))
          (set_heap (<[scoreEvent := e']> (heap st)) st)
      else st
  | None => st
  end.

(** [clear: "{that}.queue.remove({arguments}.0)"] *)
Definition clear (eventSpec : ref) (st : scheduler) : scheduler :=
  set_queue (PriorityQueue.remove eventSpec (queue st)) st.

(** [clearAll: "{that}.queue.clear()"] *)
Definition clearAll (st : scheduler) : scheduler :=
  set_queue (PriorityQueue.clear (queue st)) st.

(** Modelled from the spec: the model relay of the component framework is
    not part of the sources; "sets the scale factor and, synchronously,
    recomputes due_at for every item currently in the queue".  The
    [changePath] invoker stores the value and the [timeScale] model
    listener runs [scaleEventTimes] with it. *)
Definition setTimeScale (value : num) (st : scheduler) : scheduler :=
  scaleEventTimes value (set_timeScale value st).

(** The first steps of [scheduleEvent]: the default type, the expansion
    of a repeat, and the default [scheduledAt]. *)
Definition normalize (now : num) (e : eventSpec) : eventSpec :=
  let e1 := if bool_decide (type e = TUnset) then set_type TOnce e else e in
  let e2 := if bool_decide (type e1 = TRepeat)
            then expandRepeatingEventSpec now e1 else e1 in
  match scheduledAt e2 with
  | Some _ => e2
  | None => set_scheduledAt (Some now) e2
  end.

Section Reentrant.

(** [evaluate] is [berg.scheduler.evaluateScoreEvent] with the fuel left
    for a nested call. *)
Variable evaluate : ref → num → num → scheduler → outcome unit.

Definition scheduleEvent_with (eventSpec : ref) (st : scheduler)
  : outcome ref :=
  let now := clock st in
  let ts := timeScale st in
  match heap st !! eventSpec with
  | None => Thrown (TypeError eventSpec) st
  | Some e =>
      let e3 := normalize now e in
      match validateEventSpec e3 with
      | Some message =>
          Thrown (Error message eventSpec)
            (set_heap (<[eventSpec := e3]> (heap st)) st)
      | None =>
          let p := calcPriority now (to_num (time e3)) ts in
          let st1 := set_heap
                       (<[eventSpec := set_priority (Some p) e3]> (heap st))
                       st in
          if num_leb p now then
            match evaluate eventSpec now ts st1 with
            | Returned _ st2 => Returned eventSpec st2
            | Thrown err st2 => Thrown err st2
            | OutOfFuel => OutOfFuel
            end
          else
            Returned eventSpec
              (set_queue (PriorityQueue.push eventSpec (queue st1)) st1)
      end
  end.

Definition run_action (self : ref) (a : action) (st : scheduler)
  : outcome unit :=
  match a with
  | ActSchedule t =>
      match scheduleEvent_with (resolve self t) st with
      | Returned _ st' => Returned tt st'
      | Thrown err st' => Thrown err st'
      | OutOfFuel => OutOfFuel
      end
  | ActClear t => Returned tt (clear (resolve self t) st)
  | ActClearAll => Returned tt (clearAll st)
  | ActSetTimeScale v => Returned tt (setTimeScale v st)
  end.

Fixpoint run_script (self : ref) (script : list action) (st : scheduler)
  : outcome unit :=
  match script with
  | [] => Returned tt st
  | a :: rest =>
      match run_action self a st with
      | Returned _ st' => run_script self rest st'
      | Thrown err st' => Thrown err st'
      | OutOfFuel => OutOfFuel
      end
  end.

End Reentrant.

(** [scoreEvent.callback(now, scoreEvent)]: the invocation is recorded,
    then the callback body runs. *)
Definition record_call (scoreEvent : ref) (now : num) (st : scheduler)
  : scheduler :=
  set_trace (trace st ++ [(scoreEvent, now)]) st.

Fixpoint evaluateScoreEvent (fuel : nat) (scoreEvent : ref) (now ts : num)
    (st : scheduler) {struct fuel} : outcome unit :=
  match fuel with
  | 0 => OutOfFuel
  | S n =>
      match heap st !! scoreEvent with
      | None => Thrown (TypeError scoreEvent) st
      | Some e =>
          match callback e with
          | None => Thrown (TypeError scoreEvent) st
          | Some script =>
              match run_script (evaluateScoreEvent n) scoreEvent script
                      (record_call scoreEvent now st) with
              | Returned _ st1 => Returned tt (requeue scoreEvent now ts st1)
              | Thrown err st1 => Thrown err st1
              | OutOfFuel => OutOfFuel
              end
          end
      end
  end.

Definition scheduleEvent (fuel : nat) (eventSpec : ref) (st : scheduler)
  : outcome ref :=
  scheduleEvent_with (evaluateScoreEvent fuel) eventSpec st.

Fixpoint scheduleEvents (fuel : nat) (eventSpecs : list ref) (st : scheduler)
  : outcome unit :=
  match eventSpecs with
  | [] => Returned tt st
  | eventSpec :: rest =>
      match scheduleEvent fuel eventSpec st with
      | Returned _ st' => scheduleEvents fuel rest st'
      | Thrown err st' => Thrown err st'
      | OutOfFuel => OutOfFuel
      end
  end.

(** The argument of [schedule]: one specification or an array of them. *)
Inductive scoreSpecs : Type :=
| One (eventSpec : ref)
| Many (eventSpecs : list ref).

Definition schedule (fuel : nat) (arg : scoreSpecs) (st : scheduler)
  : outcome scoreSpecs :=
  match arg with
  | Many eventSpecs =>
      match scheduleEvents fuel eventSpecs st with
      | Returned _ st' => Returned (Many eventSpecs) st'
      | Thrown err st' => Thrown err st'
      | OutOfFuel => OutOfFuel
      end
  | One eventSpec =>
      match scheduleEvent fuel eventSpec st with
      | Returned r st' => Returned (One r) st'
      | Thrown err st' => Thrown err st'
      | OutOfFuel => OutOfFuel
      end
  end.

(** An object literal: a new object in the heap. *)
Definition new_object (e : eventSpec) (st : scheduler) : ref * scheduler :=
  let r := fresh (dom (heap st)) in
  (r, set_heap (<[r := e]> (heap st)) st).

Definition once (fuel : nat) (time : option num)
    (callback : option (list action)) (st : scheduler) : outcome ref :=
  let '(eventSpec, st1) :=
    new_object {| type := TOnce; time := time; freq := None; end_ := None;
                  callback := callback; scheduledAt := None;
                  priority := None; interval := None |} st in
  scheduleEvent fuel eventSpec st1.

Definition repeat (fuel : nat) (freq : option num)
    (callback : option (list action)) (time end_ : option num)
    (st : scheduler) : outcome ref :=
  let '(eventSpec, st1) :=
    new_object {| type := TRepeat; time := time; freq := freq; end_ := end_;
                  callback := callback; scheduledAt := None;
                  priority := None; interval := None |} st in
  scheduleEvent fuel eventSpec st1.

(** [berg.scheduler.tick(now, timeScale, queue)] *)
Fixpoint berg_scheduler_tick (fuel : nat) (now ts : num) (st : scheduler)
  : outcome unit :=
  match fuel with
  | 0 => OutOfFuel
  | S n =>
      match PriorityQueue.peek (item_priority (heap st)) (queue st) with
      | Some next =>
          if num_leb (item_priority (heap st) next) now then
            let popped :=
              set_queue (PriorityQueue.pop (item_priority (heap st)) (queue st))
                st in
            match evaluateScoreEvent n next now ts popped with
            | Returned _ st' => berg_scheduler_tick n now ts st'
            | Thrown err st' => Thrown err st'
            | OutOfFuel => OutOfFuel
            end
          else Returned tt st
      | None => Returned tt st
      end
  end.

(** The [tick] invoker:
    [berg.scheduler.tick({arguments}.0, {that}.model.timeScale, {that}.queue)];
    the time scale is read once, when the call starts. *)
Definition tick (fuel : nat) (now : num) (st : scheduler) : outcome unit :=
  berg_scheduler_tick fuel now (timeScale st) st.

(** Modelled from the spec: the clock is an external collaborator, not
    part of the sources; on each advance it holds the new time and
    notifies the scheduler's [tick] with it. *)
Definition clock_tick (fuel : nat) (now : num) (st : scheduler)
  : outcome unit :=
  tick fuel now (set_clock now st).

(** The clock advancing through the times [nows], one notification each. *)
Fixpoint run_ticks (fuel : nat) (nows : list num) (st : scheduler)
  : outcome unit :=
  match nows with
  | [] => Returned tt st
  | now :: rest =>
      match clock_tick fuel now st with
      | Returned _ st' => run_ticks fuel rest st'
      | Thrown err st' => Thrown err st'
      | OutOfFuel => OutOfFuel
      end
  end.

(** A scheduler as constructed: empty queue, [timeScale: 1.0], an offline
    clock at time 0. *)
Definition init : scheduler :=
  {| heap := ∅; queue := []; timeScale := Fin 1; clock := Fin 0;
     trace := [] |}.

(** ** Well-formed scheduler states

    The states the drain loop is analysed on: no reference is queued
    twice; every queued object has a callback that leaves the scheduler
    alone, except that it may call [clear] on its own event; no queued
    priority is [NaN]; and a queued repeat advances by a strictly positive
    scaled interval. *)

(** The action is [clear] of the event the callback was invoked for. *)
Definition clears_self (self : ref) (a : action) : bool :=
  match a with
  | ActClear t => bool_decide (resolve self t = self)
  | _ => false
  end.

(** [e.callback] is a function, and all it does to the scheduler is to
    clear its own event [r] (possibly nothing at all). *)
Definition own_callback (r : ref) (e : eventSpec) : bool :=
  match callback e with
  | Some script => forallb (clears_self r) script
  | None => false
  end.

(** The conditions on one queued object, under time scale [ts]. *)
Definition queued_ok (ts : num) (r : ref) (e : eventSpec) : bool :=
  own_callback r e
  && negb (is_nan (to_num (priority e)))
  && (if bool_decide (type e = TRepeat)
      then num_pos (num_mul (to_num (interval e)) ts) else true).

(** The reference [r] holds an object that is fit for the queue. *)
Definition item_ok (st : scheduler) (r : ref) : bool :=
  match heap st !! r with
  | Some e => queued_ok (timeScale st) r e
  | None => false
  end.

(** No reference queued twice, every queued object fit for the queue. *)
Definition well_formed (st : scheduler) : Prop :=
  NoDup (queue st) ∧ Forall (λ r, item_ok st r = true) (queue st).

(** [r] is due at [now]: [item.priority <= now]. *)
Definition due (now : num) (st : scheduler) (r : ref) : bool :=
  num_leb (item_priority (heap st) r) now.

(** ** The drain loop, turn by turn *)

(** The test of [evaluateScoreEvent]:
    [scoreEvent.type === "repeat" && scoreEvent.end > now]. *)
Definition rearms (now : num) (e : eventSpec) : bool :=
  bool_decide (type e = TRepeat) && num_gtb (to_num (end_ e)) now.

(** The event with the priority [evaluateScoreEvent] gives it when it
    queues it back up. *)
Definition rearmed (now ts : num) (e : eventSpec) : eventSpec :=
  set_priority (Some (calcPriority now (to_num (interval e)) ts)) e.

(** One turn of the loop of [tick]: [queue.pop()] of [r] followed by
    [evaluateScoreEvent], for a callback that leaves the scheduler alone. *)
Definition fire (r : ref) (now : num) (st : scheduler) : scheduler :=
  requeue r now (timeScale st) (record_call r now (clear r st)).

(** What one call of [tick(now)] does to a well-formed state [st]. *)
Record tick_post (now : num) (st st' : scheduler) : Prop := TickPost {
  tp_wf : well_formed st';
  tp_timeScale : timeScale st' = timeScale st;
  tp_length : length (queue st') ≤ length (queue st);
  tp_drained : ∀ r, r ∈ queue st' → due now st' r = false;
  tp_idle : ∀ r, r ∉ queue st ∨ due now st r = false →
    heap st' !! r = heap st !! r ∧
    (r ∈ queue st' ↔ r ∈ queue st) ∧
    fired st' r = fired st r;
  tp_due : ∀ r e, r ∈ queue st → due now st r = true →
    heap st !! r = Some e →
    fired st' r = fired st r ++ [now] ∧
    (if rearms now e
     then (heap st' !! r = Some (rearmed now (timeScale st) e) ∧
           r ∈ queue st')
     else (heap st' !! r = Some e ∧ r ∉ queue st'))
}.

(** ** Scenarios and notions of the statements *)

(** The specification as it is when it enters the queue or is evaluated. *)
Definition submitted (st : scheduler) (e : eventSpec) : eventSpec :=
  let e3 := normalize (clock st) e in
  set_priority
    (Some (calcPriority (clock st) (to_num (time e3)) (timeScale st))) e3.

(** The scenario of the specification: clock at 0, a Once event at
    offset 2, ticks at 1, 2 and 3. *)
Definition once_at_2 : eventSpec :=
  {| type := TOnce; time := Some (Fin 2); freq := None; end_ := None;
     callback := Some []; scheduledAt := None; priority := None;
     interval := None |}.



(** The Once event of the scenario, queued at time 0 under scale 1. *)
Definition once_queued : scheduler :=
  set_queue [0]
    (set_heap
       {[0 := set_priority (Some (Fin 2))
                (set_scheduledAt (Some (Fin 0)) once_at_2)]} init).

(** The scheduler after [tick(2)] has fired that event. *)
Definition once_fired : scheduler :=
  set_trace [(0, Fin 2)] (set_queue [] once_queued).

(** A queue holding one repeat that is due at [now] and that every
    firing re-arms for a time that is due again. *)
Definition spinning (now ts : num) (r : ref) (st : scheduler) : Prop :=
  queue st = [r] ∧
  ∃ e, heap st !! r = Some e ∧ type e = TRepeat ∧ callback e = Some [] ∧
       num_gtb (to_num (end_ e)) now = true ∧
       num_leb (to_num (priority e)) now = true ∧
       num_leb (calcPriority now (to_num (interval e)) ts) now = true.

(** A repeat at 2 Hz, popped from the queue for its firing at time 1,
    whose callback clears its own event. *)
Definition self_clearing : eventSpec :=
  {| type := TRepeat; time := Some (Fin 1); freq := Some (Fin 2);
     end_ := Some PInf; callback := Some [ActClear Self];
     scheduledAt := Some (Fin 0); priority := Some (Fin 1);
     interval := Some (Fin (1 # 2)) |}.

(** ** Batches and test utilities *)

(** The specification held by [r] is valid and its priority is later
    than the clock: [scheduleEvent] takes the branch that pushes it. *)
Definition queues_later (st : scheduler) (r : ref) : bool :=
  match heap st !! r with
  | Some e =>
      bool_decide (validateEventSpec (normalize (clock st) e) = None)
      && negb (num_leb (to_num (priority (submitted st e))) (clock st))
  | None => false
  end.

Definition num_neg (a : num) : num :=
  match a with
  | Fin x => Fin (- x)
  | PInf => NInf
  | NInf => PInf
  | NaN => NaN
  end.

(** [a - b] *)
Definition num_sub (a b : num) : num := num_add a (num_neg b).

(** [berg.test.assertTimeEqual] of [tests/js/utils/clock-test-utilities.js]:
    the condition it hands to [QUnit.ok]. *)
Definition assertTimeEqual (actual expected tolerance : num) : bool :=
  let larger := if num_gtb actual expected then actual else expected in
  let smaller := if num_gtb actual expected then expected else actual in
  num_leb (num_sub larger smaller) tolerance.

(** A Once event at offset 2 whose callback is not a function. *)
Definition no_callback : eventSpec :=
  {| type := TOnce; time := Some (Fin 2); freq := None; end_ := None;
     callback := None; scheduledAt := None; priority := None;
     interval := None |}.

(** A repeat at 2 Hz given without a time and without an end. *)
Definition repeat_untimed : eventSpec :=
  {| type := TRepeat; time := None; freq := Some (Fin 2); end_ := None;
     callback := Some []; scheduledAt := None; priority := None;
     interval := None |}.

(** A Once event with the given offset, as a caller would write it. *)
Definition once_at (t : Q) : eventSpec :=
  {| type := TOnce; time := Some (Fin t); freq := None; end_ := None;
     callback := Some []; scheduledAt := None; priority := None;
     interval := None |}.

(** Three event objects not yet scheduled, and one without a callback. *)
Definition three_pending : scheduler :=
  set_heap {[0 := once_at 5; 1 := once_at 5; 2 := once_at 7;
             3 := no_callback]} init.

(** The first three of them queued at time 0 under time scale 1. *)
Definition three_queued : scheduler :=
  set_queue [0; 1; 2]
    (set_heap
       {[0 := submitted init (once_at 5); 1 := submitted init (once_at 5);
         2 := submitted init (once_at 7)]} init).

(** The event with another callback. *)
Definition set_callback (v : option (list action)) (e : eventSpec)
  : eventSpec :=
  {| type := type e; time := time e; freq := freq e; end_ := end_ e;
     callback := v; scheduledAt := scheduledAt e;
     priority := priority e; interval := interval e |}.

(** A repeat at 2 Hz queued for time 3 whose end, at time 1, is already
    behind its start. *)
Definition ended_spec : eventSpec :=
  {| type := TRepeat; time := Some (Fin 3); freq := Some (Fin 2);
     end_ := Some (Fin 1); callback := Some [];
     scheduledAt := Some (Fin 0); priority := Some (Fin 3);
     interval := Some (Fin (1 # 2)) |}.

Definition repeat_ended : scheduler :=
  set_queue [0] (set_heap {[0 := ended_spec]} init).

(** A repeat at 2 Hz due at time 1 whose callback schedules the object 1,
    which has no callback. *)
Definition repeat_throwing : scheduler :=
  set_queue [0]
    (set_heap
       {[0 := set_callback (Some [ActSchedule (Obj 1)]) self_clearing;
         1 := no_callback]} init).

(** Three events queued at time 0, two of them due at time 5; the
    callback of the first one clears the second. *)
Definition clearing_head : scheduler :=
  set_queue [0; 1; 2]
    (set_heap
       {[0 := set_callback (Some [ActClear (Obj 1)])
                (submitted init (once_at 5));
         1 := submitted init (once_at 5);
         2 := submitted init (once_at 7)]} init).

(** ** Queues that [tick] drains

    The conditions under which the loop of [tick] is followed without
    computing with the times: no reference is queued twice, every queued
    callback at most clears its own event, no queued priority is [NaN],
    and at each of the tick times [nows] the priority
    [now + interval * timeScale] that [evaluateScoreEvent] would give a
    repeat compares strictly later than [now].  The last condition is
    about the sum as it is computed, so it says the same of any
    arithmetic the sum is computed in. *)

(** Firing [e] at [now] does not make it due again at [now]: either it
    is not queued back up, or its new priority is later than [now]. *)
Definition advances (ts : num) (e : eventSpec) (now : num) : bool :=
  if rearms now e
  then num_gtb (calcPriority now (to_num (interval e)) ts) now
  else true.

(** The conditions on one queued object, for the tick times [nows]. *)
Definition calm (nows : list num) (st : scheduler) (r : ref) : bool :=
  match heap st !! r with
  | Some e =>
      own_callback r e
      && negb (is_nan (to_num (priority e)))
      && forallb (advances (timeScale st) e) nows
  | None => false
  end.

Definition settled (nows : list num) (st : scheduler) : Prop :=
  NoDup (queue st) ∧ Forall (λ r, calm nows st r = true) (queue st).

(** What one call of [tick(now)] does to a settled state [st]. *)
Record drain_post (now : num) (st st' : scheduler) : Prop := DrainPost {
  dp_timeScale : timeScale st' = timeScale st;
  dp_length : length (queue st') ≤ length (queue st);
  dp_idle : ∀ r, r ∉ queue st ∨ due now st r = false →
    heap st' !! r = heap st !! r ∧
    (r ∈ queue st' ↔ r ∈ queue st) ∧
    fired st' r = fired st r;
  dp_due : ∀ r e, r ∈ queue st → due now st r = true →
    heap st !! r = Some e →
    fired st' r = fired st r ++ [now] ∧
    (if rearms now e
     then (heap st' !! r = Some (rearmed now (timeScale st) e) ∧
           r ∈ queue st')
     else (heap st' !! r = Some e ∧ r ∉ queue st'))
}.

(** ** The firings of a repeat *)





(** A repeat at 2 Hz without end, queued for time 1 under scale 1. *)
Definition queued_spec : eventSpec :=
  {| type := TRepeat; time := Some (Fin 1); freq := Some (Fin 2);
     end_ := Some PInf; callback := Some []; scheduledAt := Some (Fin 0);
     priority := Some (Fin 1); interval := Some (Fin (1 # 2)) |}.

Definition repeat_queued : scheduler :=
  set_queue [0] (set_heap {[0 := queued_spec]} init).

(** A repeat whose interval is [+Infinity], without end, queued for
    time 2 under scale 1. *)
Definition parked_spec : eventSpec :=
  {| type := TRepeat; time := Some (Fin 2); freq := Some (Fin 0);
     end_ := Some PInf; callback := Some []; scheduledAt := Some (Fin 0);
     priority := Some (Fin 2); interval := Some PInf |}.

Definition repeat_parked : scheduler :=
  set_queue [0] (set_heap {[0 := parked_spec]} init).

(** Closed decidable side conditions, by evaluation. *)
Ltac decide_closed := refine (bool_decide_unpack _ _); vm_compute; exact I.

(** ** Facts about numbers *)

Lemma num_leb_trans (a b c : num) :
  num_leb a b = true → num_leb b c = true → num_leb a c = true.
Proof.
  destruct a as [x| | |], b as [y| | |], c as [z| | |]; simpl; try done.
  rewrite !Qle_bool_iff. apply Qle_trans.
Qed.

Lemma num_leb_total (a b : num) :
  is_nan a = false → is_nan b = false →
  num_ltb a b = false → num_leb b a = true.
Proof.
  unfold num_ltb. intros -> ->. simpl. by destruct (num_leb b a).
Qed.

Lemma num_ltb_not_leb (a b : num) :
  num_ltb a b = true → num_leb b a = false.
Proof.
  unfold num_ltb. destruct (num_leb b a); [|done].
  by rewrite andb_false_r.
Qed.

Lemma num_ltb_leb (a b : num) :
  num_ltb a b = true → num_leb a b = true.
Proof.
  unfold num_ltb.
  destruct a as [x| | |], b as [y| | |]; simpl; try done.
  rewrite negb_true_iff, <- not_true_iff_false, !Qle_bool_iff. lra.
Qed.

Lemma num_leb_refl (a : num) : is_nan a = false → num_leb a a = true.
Proof.
  destruct a; try done. intros _. simpl. apply Qle_bool_iff, Qle_refl.
Qed.

Lemma Qsign_pos_lt (q : Q) : Qsign_pos q = true ↔ (0 < q)%Q.
Proof.
  unfold Qsign_pos. rewrite negb_true_iff, <- not_true_iff_false, Qle_bool_iff.
  split; [apply Qnot_le_lt | apply Qlt_not_le].
Qed.

(** Adding a strictly positive amount to a finite time gives a later
    time: a repeat re-armed with it is not due again at the same tick. *)
Lemma num_add_pos_later (now d : num) :
  is_fin now = true → num_pos d = true →
  num_leb (num_add now d) now = false ∧ is_nan (num_add now d) = false.
Proof.
  destruct now as [n| | |]; [|done..]. intros _.
  destruct d as [x| | |]; simpl; [|done..].
  rewrite Qsign_pos_lt. intros Hx. split; [|done].
  apply not_true_iff_false. rewrite Qle_bool_iff. lra.
Qed.

(** ** Facts about the priority queue *)

Module PriorityQueueFacts.
Import PriorityQueue.

Lemma least_elem (pr : ref → num) (l : list ref) (best : ref) :
  least pr best l ∈ best :: l.
Proof.
  revert best. induction l as [|x l IH]; intros best; simpl.
  - set_solver.
  - specialize (IH (if num_ltb (pr x) (pr best) then x else best)).
    destruct (num_ltb (pr x) (pr best)); set_solver.
Qed.

Lemma least_le_best (pr : ref → num) (l : list ref) (best : ref) :
  (∀ x, x ∈ best :: l → is_nan (pr x) = false) →
  num_leb (pr (least pr best l)) (pr best) = true.
Proof.
  revert best. induction l as [|x l IH]; intros best Hnan; simpl.
  - apply num_leb_refl, Hnan. set_solver.
  - destruct (num_ltb (pr x) (pr best)) eqn:Hlt.
    + eapply num_leb_trans; [|by apply num_ltb_leb].
      apply IH. intros y Hy. apply Hnan. set_solver.
    + apply IH. intros y Hy. apply Hnan. set_solver.
Qed.

(** With no [NaN] among the priorities, [least] is a minimum. *)
Lemma least_min (pr : ref → num) (l : list ref) (best y : ref) :
  (∀ x, x ∈ best :: l → is_nan (pr x) = false) →
  y ∈ best :: l →
  num_leb (pr (least pr best l)) (pr y) = true.
Proof.
  revert best. induction l as [|x l IH]; intros best Hnan Hy.
  - assert (y = best) as -> by set_solver. by apply least_le_best.
  - simpl. destruct (num_ltb (pr x) (pr best)) eqn:Hlt.
    + destruct (decide (y = best)) as [->|Hne].
      * eapply num_leb_trans; [|by apply num_ltb_leb].
        apply least_le_best. intros z Hz. apply Hnan. set_solver.
      * apply IH; [intros z Hz; apply Hnan|]; set_solver.
    + destruct (decide (y = x)) as [->|Hne].
      * eapply num_leb_trans.
        { apply least_le_best. intros z Hz. apply Hnan. set_solver. }
        apply num_leb_total; [apply Hnan; set_solver..|done].
      * apply IH; [intros z Hz; apply Hnan|]; set_solver.
Qed.

Lemma peek_elem (pr : ref → num) (items : list ref) (r : ref) :
  peek pr items = Some r → r ∈ items.
Proof.
  destruct items as [|x l]; [done|]. simpl. intros [= <-]. apply least_elem.
Qed.

Lemma peek_min (pr : ref → num) (items : list ref) (r y : ref) :
  (∀ x, x ∈ items → is_nan (pr x) = false) →
  peek pr items = Some r → y ∈ items →
  num_leb (pr r) (pr y) = true.
Proof.
  destruct items as [|x l]; [done|]. simpl. intros Hnan [= <-] Hy.
  by apply least_min.
Qed.

Lemma pop_peek (pr : ref → num) (items : list ref) (r : ref) :
  peek pr items = Some r → pop pr items = remove r items.
Proof. unfold pop. by intros ->. Qed.

Lemma remove_absent (r : ref) (items : list ref) :
  r ∉ items → remove r items = items.
Proof.
  induction items as [|x l IH]; [done|]. simpl. intros Hr.
  case_decide; [set_solver|]. f_equal. apply IH. set_solver.
Qed.

Lemma elem_of_remove_ne (r x : ref) (items : list ref) :
  x ≠ r → x ∈ remove r items ↔ x ∈ items.
Proof.
  intros Hne. induction items as [|y l IH]; [done|]. simpl.
  case_decide; set_solver.
Qed.

Lemma remove_subseteq (r : ref) (items : list ref) :
  remove r items ⊆ items.
Proof.
  induction items as [|y l IH]; [done|]. simpl. case_decide; set_solver.
Qed.

Lemma remove_NoDup (r : ref) (items : list ref) :
  NoDup items → NoDup (remove r items) ∧ r ∉ remove r items.
Proof.
  induction 1 as [|y l Hy Hl IH]; simpl.
  - split; [constructor | set_solver].
  - case_decide as Hd.
    + subst. done.
    + destruct IH as [IH1 IH2]. split.
      * constructor; [|done]. intros Hin. apply Hy.
        by apply (remove_subseteq r).
      * set_solver.
Qed.

Lemma length_remove (r : ref) (items : list ref) :
  length (remove r items) ≤ length items.
Proof.
  induction items as [|y l IH]; [done|]. simpl. case_decide; simpl; lia.
Qed.

Lemma length_remove_elem (r : ref) (items : list ref) :
  r ∈ items → S (length (remove r items)) = length items.
Proof.
  induction items as [|y l IH]; [set_solver|]. simpl. intros Hr.
  case_decide; simpl; [done|]. f_equal. apply IH. set_solver.
Qed.

End PriorityQueueFacts.

(** ** Evaluating one event *)

Lemma set_queue_id (st : scheduler) : set_queue (queue st) st = st.
Proof. by destruct st. Qed.

Lemma run_script_clears_self eval (r : ref) (script : list action)
    (st : scheduler) :
  forallb (clears_self r) script = true → r ∉ queue st →
  run_script eval r script st = Returned tt st.
Proof.
  induction script as [|a script IH]; simpl; [done|].
  intros [Ha Hs]%andb_true_iff Hr.
  destruct a as [t|t| |v]; simpl in Ha; try done.
  apply bool_decide_eq_true in Ha. simpl. rewrite Ha. unfold clear.
  rewrite PriorityQueueFacts.remove_absent, set_queue_id by done.
  by apply IH.
Qed.

Lemma evaluate_own (n : nat) (r : ref) (now ts : num) (st : scheduler)
    (e : eventSpec) :
  heap st !! r = Some e → own_callback r e = true → r ∉ queue st →
  evaluateScoreEvent (S n) r now ts st
  = Returned tt (requeue r now ts (record_call r now st)).
Proof.
  intros He Hcb Hr. simpl. rewrite He. unfold own_callback in Hcb.
  destruct (callback e) as [script|]; [|done].
  by rewrite run_script_clears_self.
Qed.

Lemma fired_record_call (r x : ref) (now : num) (st : scheduler) :
  fired (record_call r now st) x
  = if decide (x = r) then fired st x ++ [now] else fired st x.
Proof.
  unfold fired, record_call. simpl. rewrite filter_app, fmap_app.
  rewrite filter_cons, filter_nil. simpl.
  destruct (decide (r = x)), (decide (x = r)); subst; try done.
  simpl. by rewrite app_nil_r.
Qed.

Lemma fired_requeue (r x : ref) (now ts : num) (st : scheduler) :
  fired (requeue r now ts st) x = fired st x.
Proof.
  unfold requeue. destruct (heap st !! r) as [e|]; [|done].
  by destruct (_ && _).
Qed.

Lemma item_priority_ext (h h' : gmap ref eventSpec) (r : ref) :
  h' !! r = h !! r → item_priority h' r = item_priority h r.
Proof. unfold item_priority. by intros ->. Qed.

(** ** One turn of the drain loop *)

Lemma fire_unfold (r : ref) (now : num) (st : scheduler) (e : eventSpec) :
  heap st !! r = Some e →
  fire r now st =
  if rearms now e then
    {| heap := <[r := rearmed now (timeScale st) e]> (heap st);
       queue := PriorityQueue.remove r (queue st) ++ [r];
       timeScale := timeScale st; clock := clock st;
       trace := trace st ++ [(r, now)] |}
  else
    {| heap := heap st;
       queue := PriorityQueue.remove r (queue st);
       timeScale := timeScale st; clock := clock st;
       trace := trace st ++ [(r, now)] |}.
Proof.
  intros He. unfold fire, requeue. simpl. rewrite He. fold (rearms now e).
  by destruct (rearms now e).
Qed.

Lemma fired_fire (r x : ref) (now : num) (st : scheduler) :
  fired (fire r now st) x
  = if decide (x = r) then fired st x ++ [now] else fired st x.
Proof.
  unfold fire. rewrite fired_requeue, fired_record_call.
  by destruct (decide (x = r)).
Qed.

Lemma item_ok_elem (st : scheduler) (r : ref) :
  well_formed st → r ∈ queue st →
  ∃ e, heap st !! r = Some e ∧ queued_ok (timeScale st) r e = true.
Proof.
  intros [_ Hok] Hr. rewrite Forall_forall in Hok. specialize (Hok r Hr).
  unfold item_ok in Hok. destruct (heap st !! r) as [e|]; [eauto|done].
Qed.

Lemma queued_ok_inv (ts : num) (r : ref) (e : eventSpec) :
  queued_ok ts r e = true →
  own_callback r e = true ∧ is_nan (to_num (priority e)) = false ∧
  (type e = TRepeat → num_pos (num_mul (to_num (interval e)) ts) = true).
Proof.
  unfold queued_ok. rewrite !andb_true_iff, negb_true_iff.
  intros [[? ?] Hp]. split_and!; [done..|].
  intros Ht. by rewrite bool_decide_eq_true_2 in Hp.
Qed.

Lemma rearmed_ok (now ts : num) (r : ref) (e : eventSpec) :
  is_fin now = true → queued_ok ts r e = true → type e = TRepeat →
  queued_ok ts r (rearmed now ts e) = true ∧
  num_leb (to_num (priority (rearmed now ts e))) now = false.
Proof.
  intros Hnow (Hcb & _ & Hpos)%queued_ok_inv Ht. specialize (Hpos Ht).
  destruct (num_add_pos_later now _ Hnow Hpos) as [Hlater Hnan].
  split; [|done]. unfold queued_ok. simpl. unfold calcPriority.
  rewrite Hnan. simpl. rewrite bool_decide_eq_true_2 by done.
  rewrite Hpos. unfold own_callback in *. simpl. by rewrite Hcb.
Qed.

Lemma fire_well_formed (r : ref) (now : num) (st : scheduler) :
  well_formed st → is_fin now = true → r ∈ queue st →
  well_formed (fire r now st).
Proof.
  intros Hwf Hnow Hr. destruct (item_ok_elem st r Hwf Hr) as (e & He & Hok).
  destruct Hwf as [Hnd Hall].
  destruct (PriorityQueueFacts.remove_NoDup r _ Hnd) as [Hnd' Hnr].
  assert (Hrest : Forall (λ x, x ≠ r ∧ item_ok st x = true)
                    (PriorityQueue.remove r (queue st))).
  { rewrite Forall_forall in Hall |- *. intros x Hx. split.
    - intros ->. done.
    - apply Hall. by apply (PriorityQueueFacts.remove_subseteq r). }
  rewrite (fire_unfold _ _ _ _ He). destruct (rearms now e) eqn:Hre.
  - apply andb_true_iff in Hre as [Ht%bool_decide_eq_true _].
    split; simpl.
    + apply NoDup_app. split_and!; [done| |apply NoDup_singleton].
      intros x Hx ->%list_elem_of_singleton. done.
    + apply Forall_app. split.
      * eapply Forall_impl; [exact Hrest|]. intros x [Hne Hx].
        unfold item_ok in *. simpl. by rewrite lookup_insert_ne.
      * apply Forall_singleton. unfold item_ok. simpl.
        rewrite lookup_insert_eq. by apply rearmed_ok.
  - split; simpl; [done|].
    eapply Forall_impl; [exact Hrest|]. by intros x [_ Hx].
Qed.

Lemma fire_other (r x : ref) (now : num) (st : scheduler) :
  x ≠ r →
  heap (fire r now st) !! x = heap st !! x ∧
  (x ∈ queue (fire r now st) ↔ x ∈ queue st) ∧
  fired (fire r now st) x = fired st x.
Proof.
  intros Hne. rewrite fired_fire. rewrite decide_False by done.
  split_and!; [| |done].
  - unfold fire, requeue. simpl. destruct (heap st !! r) as [e|]; [|done].
    destruct (_ && _); [|done]. simpl. by rewrite lookup_insert_ne.
  - unfold fire, requeue. simpl. destruct (heap st !! r) as [e|].
    + destruct (_ && _); simpl.
      * unfold PriorityQueue.push. rewrite elem_of_app, list_elem_of_singleton.
        rewrite PriorityQueueFacts.elem_of_remove_ne by done. naive_solver.
      * by rewrite PriorityQueueFacts.elem_of_remove_ne.
    + simpl. by rewrite PriorityQueueFacts.elem_of_remove_ne.
Qed.

Lemma fire_same (r : ref) (now : num) (st : scheduler) (e : eventSpec) :
  well_formed st → is_fin now = true → r ∈ queue st →
  heap st !! r = Some e →
  fired (fire r now st) r = fired st r ++ [now] ∧
  (if rearms now e
   then (heap (fire r now st) !! r = Some (rearmed now (timeScale st) e) ∧
         r ∈ queue (fire r now st) ∧
         due now (fire r now st) r = false)
   else (heap (fire r now st) !! r = Some e ∧ r ∉ queue (fire r now st))).
Proof.
  intros Hwf Hnow Hr He. rewrite fired_fire, decide_True by done.
  split; [done|].
  destruct (item_ok_elem st r Hwf Hr) as (e' & He' & Hok).
  assert (e' = e) as -> by congruence.
  rewrite (fire_unfold _ _ _ _ He). destruct (rearms now e) eqn:Hre; simpl.
  - apply andb_true_iff in Hre as [Ht%bool_decide_eq_true _].
    split_and!.
    + by rewrite lookup_insert_eq.
    + set_solver.
    + unfold due, item_priority. simpl. rewrite lookup_insert_eq.
      by apply (rearmed_ok now _ r).
  - split; [done|]. apply PriorityQueueFacts.remove_NoDup, Hwf.
Qed.

Lemma fire_frame (r : ref) (now : num) (st : scheduler) :
  timeScale (fire r now st) = timeScale st ∧
  clock (fire r now st) = clock st.
Proof.
  unfold fire, requeue. simpl. destruct (heap st !! r) as [e|]; [|done].
  by destruct (_ && _).
Qed.

Lemma fire_length (r : ref) (now : num) (st : scheduler) :
  r ∈ queue st → length (queue (fire r now st)) ≤ length (queue st).
Proof.
  intros Hr. pose proof (PriorityQueueFacts.length_remove_elem r _ Hr).
  unfold fire, requeue. simpl. destruct (heap st !! r) as [e|]; simpl; [|lia].
  destruct (_ && _); simpl; [|lia].
  unfold PriorityQueue.push. rewrite length_app. simpl. lia.
Qed.

(** ** The drain loop of [tick] *)

Lemma tick_post_refl (now : num) (st : scheduler) :
  well_formed st → (∀ r, r ∈ queue st → due now st r = false) →
  tick_post now st st.
Proof.
  intros Hwf Hnone. split; try done.
  intros r e Hr Hd. rewrite Hnone in Hd; done.
Qed.

Lemma queue_no_nan (st : scheduler) (x : ref) :
  well_formed st → x ∈ queue st → is_nan (item_priority (heap st) x) = false.
Proof.
  intros Hwf Hx. destruct (item_ok_elem st x Hwf Hx) as (e & He & Hok).
  unfold item_priority. rewrite He. by apply queued_ok_inv in Hok as (_ & ? & _).
Qed.

(** When the head of the queue is not due, nothing is. *)
Lemma peek_not_due (now : num) (st : scheduler) (next : ref) :
  well_formed st →
  PriorityQueue.peek (item_priority (heap st)) (queue st) = Some next →
  due now st next = false →
  ∀ r, r ∈ queue st → due now st r = false.
Proof.
  intros Hwf Hpeek Hnext r Hr. unfold due in *.
  destruct (num_leb (item_priority (heap st) r) now) eqn:Hd; [|done].
  rewrite <- Hnext. symmetry. eapply num_leb_trans; [|exact Hd].
  eapply PriorityQueueFacts.peek_min; [|exact Hpeek|exact Hr].
  intros x Hx. by apply queue_no_nan.
Qed.

Lemma tick_drain (now : num) (n : nat) :
  is_fin now = true →
  ∀ (D : list ref) (st : scheduler),
    length D ≤ n → well_formed st →
    (∀ r, r ∈ queue st → due now st r = true → r ∈ D) →
    ∃ st', berg_scheduler_tick (S n) now (timeScale st) st = Returned tt st' ∧
           tick_post now st st' ∧ clock st' = clock st.
Proof.
  intros Hnow. induction n as [|n IH]; intros D st HD Hwf Hdue.
  - exists st. assert (D = []) as -> by (destruct D; [done|simpl in HD; lia]).
    assert (Hnone : ∀ r, r ∈ queue st → due now st r = false).
    { intros r Hr. destruct (due now st r) eqn:Hd; [|done].
      specialize (Hdue r Hr Hd). set_solver. }
    split; [|split; [by apply tick_post_refl|done]]. simpl.
    destruct (PriorityQueue.peek _ _) as [next|] eqn:Hpeek; [|done].
    apply PriorityQueueFacts.peek_elem in Hpeek.
    fold (due now st next). by rewrite (Hnone next Hpeek).
  - cbn [berg_scheduler_tick].
    destruct (PriorityQueue.peek _ _) as [next|] eqn:Hpeek.
    2:{ exists st. split_and!; [done| |done]. apply tick_post_refl; [done|].
        destruct (queue st); [set_solver|done]. }
    fold (due now st next). destruct (due now st next) eqn:Hnext.
    2:{ exists st. split_and!; [done| |done]. apply tick_post_refl; [done|].
        by eapply peek_not_due. }
    pose proof (PriorityQueueFacts.peek_elem _ _ _ Hpeek) as Hin.
    destruct (item_ok_elem st next Hwf Hin) as (e & He & Hok).
    apply queued_ok_inv in Hok as (Hcb & _ & _).
    rewrite (PriorityQueueFacts.pop_peek _ _ _ Hpeek).
    change (set_queue (PriorityQueue.remove next (queue st)) st)
      with (clear next st).
    rewrite (evaluate_own n next now (timeScale st) (clear next st) e);
      [|done|done|apply PriorityQueueFacts.remove_NoDup, Hwf].
    change (requeue next now (timeScale st)
              (record_call next now (clear next st))) with (fire next now st).
    pose proof (fire_well_formed next now st Hwf Hnow Hin) as Hwf1.
    destruct (fire_frame next now st) as [Hts1 Hck1].
    destruct (fire_same next now st e Hwf Hnow Hin He) as [Hf1 Hq1].
    destruct (IH (filter (λ x, x ≠ next) D) (fire next now st))
      as (st' & Hrun & Hpost & Hck'); [|done| |].
    + assert (length (filter (λ x, x ≠ next) D) < length D); [|lia].
      apply (length_filter_lt _ _ next); [by apply Hdue|]. by intros ?.
    + intros r Hr Hd. apply list_elem_of_filter.
      destruct (decide (r = next)) as [->|Hne].
      * destruct (rearms now e); [|by destruct Hq1].
        destruct Hq1 as (_ & _ & Hq1). congruence.
      * split; [done|]. destruct (fire_other next r now st Hne) as (Hh & Hq & _).
        apply Hdue; [by apply Hq|].
        unfold due in *. by rewrite <- (item_priority_ext _ _ _ Hh).
    + rewrite Hts1 in Hrun. exists st'. split; [done|].
      split; [|congruence].
      destruct Hpost as [Pwf Pts Plen Pdr Pidle Pdue].
      split; try done; try congruence.
      * pose proof (fire_length next now st Hin). lia.
      * intros r Hidle. assert (Hne : r ≠ next).
        { intros ->. destruct Hidle as [?|Hidle]; [done|congruence]. }
        destruct (fire_other next r now st Hne) as (Hh & Hq & Hf).
        destruct (Pidle r) as (Hh' & Hq' & Hf').
        { destruct Hidle as [Hidle|Hidle]; [left; by rewrite Hq|right].
          unfold due in *. by rewrite (item_priority_ext _ _ _ Hh). }
        split_and!; [congruence|by rewrite Hq'|congruence].
      * intros r e' Hr Hd He'. destruct (decide (r = next)) as [->|Hne].
        -- assert (e' = e) as -> by congruence.
           destruct (rearms now e) eqn:Hre.
           ++ destruct Hq1 as (Hh1 & Hq1 & Hd1).
              destruct (Pidle next (or_intror Hd1)) as (Hh' & Hq' & Hf').
              split_and!; [congruence|congruence|by apply Hq'].
           ++ destruct Hq1 as (Hh1 & Hq1).
              destruct (Pidle next (or_introl Hq1)) as (Hh' & Hq' & Hf').
              split_and!; [congruence|congruence|by rewrite Hq'].
        -- destruct (fire_other next r now st Hne) as (Hh & Hq & Hf).
           destruct (Pdue r e') as [Hf' Hq'].
           { by apply Hq. }
           { unfold due in *. by rewrite (item_priority_ext _ _ _ Hh). }
           { congruence. }
           rewrite Hts1 in Hq'. split; [congruence|done].
Qed.

Lemma tick_spec (fuel : nat) (now : num) (st : scheduler) :
  is_fin now = true → well_formed st → length (queue st) < fuel →
  ∃ st', tick fuel now st = Returned tt st' ∧ tick_post now st st' ∧
         clock st' = clock st.
Proof.
  intros Hnow Hwf Hfuel. destruct fuel as [|n]; [lia|].
  apply (tick_drain now n Hnow (queue st)); [lia|done|done].
Qed.

Lemma clock_tick_spec (fuel : nat) (now : num) (st : scheduler) :
  is_fin now = true → well_formed st → length (queue st) < fuel →
  ∃ st', clock_tick fuel now st = Returned tt st' ∧ tick_post now st st' ∧
         clock st' = now.
Proof.
  intros Hnow Hwf Hfuel.
  destruct (tick_spec fuel now (set_clock now st)) as (st' & Hrun & Hp & Hck);
    [done..|].
  exists st'. split_and!; [done| |done]. by destruct Hp.
Qed.

(** ** Sequences of ticks *)

(** An event that is not queued is left alone by every later tick. *)
Lemma absent_never_fires (fuel : nat) (r : ref) (nows : list num) :
  Forall (λ now, is_fin now = true) nows →
  ∀ st, well_formed st → r ∉ queue st → length (queue st) < fuel →
  ∃ st', run_ticks fuel nows st = Returned tt st' ∧
         fired st' r = fired st r ∧ heap st' !! r = heap st !! r ∧
         (r ∉ queue st') ∧ well_formed st'.
Proof.
  induction 1 as [|now nows Hnow _ IH]; intros st Hwf Hr Hfuel.
  - by exists st.
  - destruct (clock_tick_spec fuel now st Hnow Hwf Hfuel)
      as (st1 & Hrun & Hp & _).
    destruct Hp as [Pwf _ Plen _ Pidle _]. simpl.
    destruct (Pidle r (or_introl Hr)) as (Hh & Hq & Hf).
    destruct (IH st1) as (st' & Hrun' & Hf' & Hh' & Hq' & Hwf');
      [done|by rewrite Hq|lia|].
    exists st'. rewrite Hrun. split_and!; [done|congruence..|done|done].
Qed.

(** An event that is not a repeat fires at the first tick that reaches
    its priority, and only then; once fired it is out of the queue. *)
Lemma once_track (fuel : nat) (r : ref) (p : num) (nows : list num) :
  Forall (λ now, is_fin now = true) nows →
  ∀ st e, well_formed st → r ∈ queue st → heap st !! r = Some e →
    type e ≠ TRepeat → to_num (priority e) = p →
    length (queue st) < fuel →
    ∃ st', run_ticks fuel nows st = Returned tt st' ∧
           fired st' r
           = fired st r ++ take 1 (filter (λ now, num_leb p now = true) nows) ∧
           (r ∈ queue st' ↔ filter (λ now, num_leb p now = true) nows = []).
Proof.
  induction 1 as [|now nows Hnow Hnows IH]; intros st e Hwf Hr He Ht Hp Hfuel.
  - exists st. split; [done|]. by rewrite filter_nil, app_nil_r.
  - destruct (clock_tick_spec fuel now st Hnow Hwf Hfuel)
      as (st1 & Hrun & Hp1 & _).
    destruct Hp1 as [Pwf _ Plen _ Pidle Pdue]. simpl. rewrite Hrun.
    assert (Hdue : due now st r = num_leb p now).
    { unfold due, item_priority. by rewrite He, Hp. }
    rewrite filter_cons. destruct (num_leb p now) eqn:Hle.
    + rewrite decide_True by done. simpl.
      destruct (Pdue r e Hr Hdue He) as [Hf Hq].
      assert (rearms now e = false) as Hre.
      { unfold rearms. by rewrite bool_decide_eq_false_2. }
      rewrite Hre in Hq. destruct Hq as [_ Hq].
      destruct (absent_never_fires fuel r nows Hnows st1)
        as (st' & Hrun' & Hf' & _ & Hq' & _); [done|done|lia|].
      exists st'. split_and!; [done| |done].
      rewrite Hf', Hf. reflexivity.
    + rewrite decide_False by (by intros ?).
      destruct (Pidle r (or_intror Hdue)) as (Hh & Hq & Hf).
      destruct (IH st1 e) as (st' & Hrun' & Hf' & Hq');
        [done|by apply Hq|congruence|done|done|lia|].
      exists st'. split_and!; [done|congruence|done].
Qed.

(** ** Scheduling *)

Lemma validate_ok (e : eventSpec) :
  is_Some (callback e) → is_Some (time e) →
  (type e = TRepeat → is_Some (freq e)) →
  validateEventSpec e = None.
Proof.
  intros [c Hc] [t Ht] Hf. unfold validateEventSpec. rewrite Hc, Ht.
  rewrite !(bool_decide_eq_false_2 (Some _ = None)) by done.
  destruct (decide (type e = TRepeat)) as [Hty|Hty].
  - destruct (Hf Hty) as [f ->].
    rewrite (bool_decide_eq_false_2 (Some _ = None)) by done.
    by rewrite andb_false_r.
  - by rewrite (bool_decide_eq_false_2 (type e = TRepeat)).
Qed.

Lemma own_callback_is_Some (r : ref) (e : eventSpec) :
  own_callback r e = true → is_Some (callback e).
Proof. unfold own_callback. destruct (callback e); [eauto|done]. Qed.

Lemma scheduleEvent_valid (fuel : nat) (r : ref) (st : scheduler)
    (e : eventSpec) :
  heap st !! r = Some e →
  validateEventSpec (normalize (clock st) e) = None →
  scheduleEvent fuel r st =
  let st1 := set_heap (<[r := submitted st e]> (heap st)) st in
  if num_leb (to_num (priority (submitted st e))) (clock st) then
    match evaluateScoreEvent fuel r (clock st) (timeScale st) st1 with
    | Returned _ st2 => Returned r st2
    | Thrown err st2 => Thrown err st2
    | OutOfFuel => OutOfFuel
    end
  else Returned r (set_queue (queue st ++ [r]) st1).
Proof.
  intros He Hv. unfold scheduleEvent, scheduleEvent_with. by rewrite He, Hv.
Qed.

(** A valid specification whose priority is later than the clock is
    queued, and the state stays well formed. *)
Lemma schedule_queued (fuel : nat) (r : ref) (st : scheduler)
    (e : eventSpec) :
  well_formed st → r ∉ queue st → heap st !! r = Some e →
  validateEventSpec (normalize (clock st) e) = None →
  queued_ok (timeScale st) r (submitted st e) = true →
  num_leb (to_num (priority (submitted st e))) (clock st) = false →
  ∃ st1, scheduleEvent fuel r st = Returned r st1 ∧
         well_formed st1 ∧ r ∈ queue st1 ∧
         heap st1 !! r = Some (submitted st e) ∧
         trace st1 = trace st ∧ timeScale st1 = timeScale st ∧
         length (queue st1) = S (length (queue st)).
Proof.
  intros [Hnd Hall] Hr He Hv Hok Hlater.
  rewrite (scheduleEvent_valid fuel r st e He Hv). cbn zeta. rewrite Hlater.
  eexists. split; [done|]. simpl. split_and!; try done.
  - split; simpl.
    + apply NoDup_app. split_and!; [done| |apply NoDup_singleton].
      intros x Hx ->%list_elem_of_singleton. done.
    + apply Forall_app. split.
      * rewrite Forall_forall in Hall |- *. intros x Hx.
        specialize (Hall x Hx). unfold item_ok in *. simpl.
        rewrite lookup_insert_ne; [done|]. by intros ->.
      * apply Forall_singleton. unfold item_ok. simpl.
        by rewrite lookup_insert_eq.
  - set_solver.
  - by rewrite lookup_insert_eq.
  - rewrite length_app. simpl. lia.
Qed.

Lemma num_gtb_later (p now : num) :
  num_gtb p now = true → num_leb p now = false ∧ is_nan p = false.
Proof.
  unfold num_gtb. intros H. split; [by apply num_ltb_not_leb|].
  unfold num_ltb in H. by destruct p, now.
Qed.

(** C1. A Once specification submitted with a due time strictly in the
    future is not invoked by the scheduling call; driven by any sequence
    of ticks, its callback is invoked exactly once, at the first tick
    whose time has reached [clock + time * timeScale] (the values at
    submission), at no earlier tick and at no later one; it stays in the
    queue until that tick and is never in the queue after it. *)
Theorem once_fires_exactly_once (fuel : nat) (r : ref) (e : eventSpec)
    (t : num) (st : scheduler) (nows : list num) :
  well_formed st → r ∉ queue st → heap st !! r = Some e →
  type e = TOnce ∨ type e = TUnset →
  time e = Some t → own_callback r e = true →
  num_gtb (calcPriority (clock st) t (timeScale st)) (clock st) = true →
  Forall (λ now, is_fin now = true) nows →
  S (length (queue st)) < fuel →
  ∃ st1 st',
    scheduleEvent fuel r st = Returned r st1 ∧
    fired st1 r = fired st r ∧
    run_ticks fuel nows st1 = Returned tt st' ∧
    fired st' r
    = fired st r
      ++ take 1 (filter
                   (λ now, num_leb (calcPriority (clock st) t (timeScale st))
                                   now = true) nows) ∧
    (r ∈ queue st' ↔
     filter (λ now, num_leb (calcPriority (clock st) t (timeScale st))
                            now = true) nows = []).
Proof.
  intros Hwf Hr He Ht Htime Hcb Hfuture Hnows Hfuel.
  apply num_gtb_later in Hfuture as [Hlater Hnan].
  assert (Hnorm : type (normalize (clock st) e) ≠ TRepeat ∧
                  time (normalize (clock st) e) = Some t ∧
                  callback (normalize (clock st) e) = callback e).
  { destruct e as [ty tm fq en cb sa pr iv]. simpl in *. subst tm.
    unfold normalize. by destruct Ht as [->| ->], sa. }
  destruct Hnorm as (Hty & Htm & Hcall).
  assert (Hpr : to_num (priority (submitted st e))
                = calcPriority (clock st) t (timeScale st)).
  { unfold submitted. simpl. by rewrite Htm. }
  destruct (schedule_queued fuel r st e) as (st1 & Hs & Hwf1 & Hq1 & Hh1 & Htr & _ & Hlen);
    [done|done|done| | |by rewrite Hpr|].
  { apply validate_ok; [|by rewrite Htm|done].
    rewrite Hcall. by eapply own_callback_is_Some. }
  { unfold queued_ok. rewrite Hpr, Hnan. simpl.
    rewrite (bool_decide_eq_false_2 (_ = TRepeat)) by done.
    unfold own_callback in *. simpl. rewrite Hcall.
    by rewrite Hcb. }
  destruct (once_track fuel r (calcPriority (clock st) t (timeScale st))
              nows Hnows st1 (submitted st e)) as (st' & Hrun & Hf & Hq);
    [done|done|done|done|done|lia|].
  exists st1, st'. split_and!; [done| |done| |done].
  - unfold fired. by rewrite Htr.
  - rewrite Hf. unfold fired. by rewrite Htr.
Qed.

Lemma init_well_formed (h : gmap ref eventSpec) :
  well_formed (set_heap h init).
Proof. split; simpl; constructor. Qed.

Lemma once_fires_exactly_once_witness :
  ∃ st1 st',
    scheduleEvent 5 0 (set_heap {[0 := once_at_2]} init) = Returned 0 st1 ∧
    fired st1 0 = [] ∧
    run_ticks 5 [Fin 1; Fin 2; Fin 3] st1 = Returned tt st' ∧
    fired st' 0 = [Fin 2] ∧ (0 ∈ queue st' ↔ [Fin 2; Fin 3] = []).
Proof.
  apply (once_fires_exactly_once 5 0 once_at_2 (Fin 2)
           (set_heap {[0 := once_at_2]} init) [Fin 1; Fin 2; Fin 3]).
  - apply init_well_formed.
  - apply not_elem_of_nil.
  - reflexivity.
  - left. reflexivity.
  - reflexivity.
  - reflexivity.
  - reflexivity.
  - repeat constructor.
  - simpl. lia.
Defined.

Lemma normalize_callback (now : num) (e : eventSpec) :
  callback (normalize now e) = callback e.
Proof.
  destruct e as [ty tm fq en cb sa pr iv]. unfold normalize.
  destruct ty, tm, sa; reflexivity.
Qed.




(** ** Draining a settled queue *)

Lemma calm_elem (nows : list num) (st : scheduler) (r : ref) :
  settled nows st → r ∈ queue st →
  ∃ e, heap st !! r = Some e ∧ own_callback r e = true ∧
       is_nan (to_num (priority e)) = false ∧
       ∀ now, now ∈ nows → advances (timeScale st) e now = true.
Proof.
  intros [_ Hok] Hr. rewrite Forall_forall in Hok. specialize (Hok r Hr).
  unfold calm in Hok. destruct (heap st !! r) as [e|]; [|done].
  apply andb_true_iff in Hok as [[Hcb Hn]%andb_true_iff Hadv].
  exists e. split_and!; [done|done|by apply negb_true_iff|].
  rewrite forallb_forall in Hadv. intros now Hnow.
  by apply Hadv, list_elem_of_In.
Qed.

Lemma calm_intro (nows : list num) (st : scheduler) (r : ref)
    (e : eventSpec) :
  heap st !! r = Some e → own_callback r e = true →
  is_nan (to_num (priority e)) = false →
  (∀ now, now ∈ nows → advances (timeScale st) e now = true) →
  calm nows st r = true.
Proof.
  intros He Hcb Hn Hadv. unfold calm. rewrite He, Hcb, Hn. simpl.
  apply forallb_forall. intros now Hnow. by apply Hadv, list_elem_of_In.
Qed.

(** In exact arithmetic a well-formed queue is settled for all finite
    tick times. *)
Lemma well_formed_settled (nows : list num) (st : scheduler) :
  Forall (λ now, is_fin now = true) nows → well_formed st →
  settled nows st.
Proof.
  intros Hnows Hwf. split; [apply Hwf|]. apply Forall_forall. intros r Hr.
  destruct (item_ok_elem st r Hwf Hr) as (e & He & Hok).
  apply queued_ok_inv in Hok as (Hcb & Hn & Hpos).
  apply (calm_intro nows st r e He Hcb Hn). intros now Hnow.
  rewrite Forall_forall in Hnows. specialize (Hnows now Hnow).
  unfold advances. destruct (rearms now e) eqn:Hre; [|done].
  apply andb_true_iff in Hre as [Ht%bool_decide_eq_true _].
  destruct (num_add_pos_later now _ Hnows (Hpos Ht)) as [Hlater Hnan].
  unfold num_gtb, num_ltb, calcPriority. rewrite Hlater, Hnan.
  by destruct now.
Qed.

Lemma advances_later (ts : num) (e : eventSpec) (now : num) :
  advances ts e now = true → rearms now e = true →
  num_leb (to_num (priority (rearmed now ts e))) now = false ∧
  is_nan (to_num (priority (rearmed now ts e))) = false.
Proof.
  unfold advances. intros Ha Hre. rewrite Hre in Ha.
  by apply num_gtb_later in Ha.
Qed.

Lemma fire_settled (nows : list num) (r : ref) (now : num)
    (st : scheduler) :
  settled nows st → now ∈ nows → r ∈ queue st →
  settled nows (fire r now st).
Proof.
  intros Hst Hnow Hr.
  destruct (calm_elem nows st r Hst Hr) as (e & He & Hcb & Hn & Hadv).
  destruct Hst as [Hnd Hall].
  destruct (PriorityQueueFacts.remove_NoDup r _ Hnd) as [Hnd' Hnr].
  assert (Hrest : Forall (λ x, x ≠ r ∧ calm nows st x = true)
                    (PriorityQueue.remove r (queue st))).
  { rewrite Forall_forall in Hall |- *. intros x Hx. split.
    - intros ->. done.
    - apply Hall. by apply (PriorityQueueFacts.remove_subseteq r). }
  rewrite (fire_unfold _ _ _ _ He). destruct (rearms now e) eqn:Hre.
  - split; simpl.
    + apply NoDup_app. split_and!; [done| |apply NoDup_singleton].
      intros x Hx ->%list_elem_of_singleton. done.
    + apply Forall_app. split.
      * eapply Forall_impl; [exact Hrest|]. intros x [Hne Hx].
        unfold calm in *. simpl. by rewrite lookup_insert_ne.
      * apply Forall_singleton.
        apply (calm_intro nows _ r (rearmed now (timeScale st) e)).
        -- simpl. by rewrite lookup_insert_eq.
        -- exact Hcb.
        -- by destruct (advances_later _ _ _ (Hadv now Hnow) Hre).
        -- exact Hadv.
  - split; simpl; [done|].
    eapply Forall_impl; [exact Hrest|]. by intros x [_ Hx].
Qed.

Lemma fire_same_settled (nows : list num) (r : ref) (now : num)
    (st : scheduler) (e : eventSpec) :
  settled nows st → now ∈ nows → r ∈ queue st → heap st !! r = Some e →
  fired (fire r now st) r = fired st r ++ [now] ∧
  (if rearms now e
   then (heap (fire r now st) !! r = Some (rearmed now (timeScale st) e) ∧
         r ∈ queue (fire r now st) ∧
         due now (fire r now st) r = false)
   else (heap (fire r now st) !! r = Some e ∧ r ∉ queue (fire r now st))).
Proof.
  intros Hst Hnow Hr He. rewrite fired_fire, decide_True by done.
  split; [done|].
  destruct (calm_elem nows st r Hst Hr) as (e' & He' & _ & _ & Hadv).
  assert (e' = e) as -> by congruence.
  rewrite (fire_unfold _ _ _ _ He). destruct (rearms now e) eqn:Hre; simpl.
  - split_and!.
    + by rewrite lookup_insert_eq.
    + set_solver.
    + unfold due, item_priority. simpl. rewrite lookup_insert_eq.
      by destruct (advances_later _ _ _ (Hadv now Hnow) Hre).
  - split; [done|]. apply PriorityQueueFacts.remove_NoDup, Hst.
Qed.

Lemma drain_post_refl (now : num) (st : scheduler) :
  (∀ r, r ∈ queue st → due now st r = false) → drain_post now st st.
Proof.
  intros Hnone. split; try done.
  intros r e Hr Hd. rewrite Hnone in Hd; done.
Qed.

(** When the head of a settled queue is not due, nothing is. *)
Lemma settled_peek_not_due (nows : list num) (now : num) (st : scheduler)
    (next : ref) :
  settled nows st →
  PriorityQueue.peek (item_priority (heap st)) (queue st) = Some next →
  due now st next = false →
  ∀ r, r ∈ queue st → due now st r = false.
Proof.
  intros Hst Hpeek Hnext r Hr. unfold due in *.
  destruct (num_leb (item_priority (heap st) r) now) eqn:Hd; [|done].
  rewrite <- Hnext. symmetry. eapply num_leb_trans; [|exact Hd].
  eapply PriorityQueueFacts.peek_min; [|exact Hpeek|exact Hr].
  intros x Hx. destruct (calm_elem nows st x Hst Hx) as (e & He & _ & Hn & _).
  unfold item_priority. by rewrite He.
Qed.

(** The loop of [tick(now)] on a settled queue: every turn takes one
    event out of those that are due, and none comes back due. *)
Lemma drain_settled (nows : list num) (now : num) (n : nat) :
  now ∈ nows →
  ∀ (D : list ref) (st : scheduler),
    length D ≤ n → settled nows st →
    (∀ r, r ∈ queue st → due now st r = true → r ∈ D) →
    ∃ st', berg_scheduler_tick (S n) now (timeScale st) st = Returned tt st' ∧
           settled nows st' ∧ drain_post now st st' ∧ clock st' = clock st.
Proof.
  intros Hnow. induction n as [|n IH]; intros D st HD Hst Hdue.
  - exists st. assert (D = []) as -> by (destruct D; [done|simpl in HD; lia]).
    assert (Hnone : ∀ r, r ∈ queue st → due now st r = false).
    { intros r Hr. destruct (due now st r) eqn:Hd; [|done].
      specialize (Hdue r Hr Hd). set_solver. }
    split; [|split_and!; [done|by apply drain_post_refl|done]]. simpl.
    destruct (PriorityQueue.peek _ _) as [next|] eqn:Hpeek; [|done].
    apply PriorityQueueFacts.peek_elem in Hpeek.
    fold (due now st next). by rewrite (Hnone next Hpeek).
  - cbn [berg_scheduler_tick].
    destruct (PriorityQueue.peek _ _) as [next|] eqn:Hpeek.
    2:{ exists st. split_and!; [done|done| |done]. apply drain_post_refl.
        destruct (queue st); [set_solver|done]. }
    fold (due now st next). destruct (due now st next) eqn:Hnext.
    2:{ exists st. split_and!; [done|done| |done]. apply drain_post_refl.
        by eapply settled_peek_not_due. }
    pose proof (PriorityQueueFacts.peek_elem _ _ _ Hpeek) as Hin.
    destruct (calm_elem nows st next Hst Hin) as (e & He & Hcb & _ & _).
    rewrite (PriorityQueueFacts.pop_peek _ _ _ Hpeek).
    change (set_queue (PriorityQueue.remove next (queue st)) st)
      with (clear next st).
    rewrite (evaluate_own n next now (timeScale st) (clear next st) e);
      [|done|done|apply PriorityQueueFacts.remove_NoDup, Hst].
    change (requeue next now (timeScale st)
              (record_call next now (clear next st))) with (fire next now st).
    pose proof (fire_settled nows next now st Hst Hnow Hin) as Hst1.
    destruct (fire_frame next now st) as [Hts1 Hck1].
    destruct (fire_same_settled nows next now st e Hst Hnow Hin He)
      as [Hf1 Hq1].
    destruct (IH (filter (λ x, x ≠ next) D) (fire next now st))
      as (st' & Hrun & Hst' & Hpost & Hck'); [|done| |].
    + assert (length (filter (λ x, x ≠ next) D) < length D); [|lia].
      apply (length_filter_lt _ _ next); [by apply Hdue|]. by intros ?.
    + intros r Hr Hd. apply list_elem_of_filter.
      destruct (decide (r = next)) as [->|Hne].
      * destruct (rearms now e); [|by destruct Hq1].
        destruct Hq1 as (_ & _ & Hq1). congruence.
      * split; [done|]. destruct (fire_other next r now st Hne) as (Hh & Hq & _).
        apply Hdue; [by apply Hq|].
        unfold due in *. by rewrite <- (item_priority_ext _ _ _ Hh).
    + rewrite Hts1 in Hrun. exists st'. split; [done|].
      split; [done|]. split; [|congruence].
      destruct Hpost as [Pts Plen Pidle Pdue].
      split; try done; try congruence.
      * pose proof (fire_length next now st Hin). lia.
      * intros r Hidle. assert (Hne : r ≠ next).
        { intros ->. destruct Hidle as [?|Hidle]; [done|congruence]. }
        destruct (fire_other next r now st Hne) as (Hh & Hq & Hf).
        destruct (Pidle r) as (Hh' & Hq' & Hf').
        { destruct Hidle as [Hidle|Hidle]; [left; by rewrite Hq|right].
          unfold due in *. by rewrite (item_priority_ext _ _ _ Hh). }
        split_and!; [congruence|by rewrite Hq'|congruence].
      * intros r e' Hr Hd He'. destruct (decide (r = next)) as [->|Hne].
        -- assert (e' = e) as -> by congruence.
           destruct (rearms now e) eqn:Hre.
           ++ destruct Hq1 as (Hh1 & Hq1 & Hd1).
              destruct (Pidle next (or_intror Hd1)) as (Hh' & Hq' & Hf').
              split_and!; [congruence|congruence|by apply Hq'].
           ++ destruct Hq1 as (Hh1 & Hq1).
              destruct (Pidle next (or_introl Hq1)) as (Hh' & Hq' & Hf').
              split_and!; [congruence|congruence|by rewrite Hq'].
        -- destruct (fire_other next r now st Hne) as (Hh & Hq & Hf).
           destruct (Pdue r e') as [Hf' Hq'].
           { by apply Hq. }
           { unfold due in *. by rewrite (item_priority_ext _ _ _ Hh). }
           { congruence. }
           rewrite Hts1 in Hq'. split; [congruence|done].
Qed.

Lemma tick_settled (fuel : nat) (nows : list num) (now : num)
    (st : scheduler) :
  now ∈ nows → settled nows st → length (queue st) < fuel →
  ∃ st', tick fuel now st = Returned tt st' ∧ settled nows st' ∧
         drain_post now st st' ∧ clock st' = clock st.
Proof.
  intros Hnow Hst Hfuel. destruct fuel as [|n]; [lia|].
  apply (drain_settled nows now n Hnow (queue st)); [lia|done|done].
Qed.




(** ** Re-arming a repeat *)




(** ** A repeat driven by ticks *)







(** The end check comes after the callback: a repeat at 1 Hz from time 1
    whose end is at 3/2 fires at the tick at 1, is re-armed for 2 because
    [end > 1], and fires again at the tick at 2, after its end. *)
Example repeat_fires_past_end :
  ∃ r st st',
    repeat 5 (Some (Fin 1)) (Some []) (Some (Fin 1)) (Some (Fin (3 # 2))) init
    = Returned r st ∧
    run_ticks 5 [Fin 1; Fin 2; Fin 3] st = Returned tt st' ∧
    fired st' r = [Fin 1; Fin 2].
Proof.
  eexists _, _, _. split; [vm_compute; reflexivity|].
  split; vm_compute; reflexivity.
Qed.

(** ** Validation *)

(** C5 (as amended). Scheduling a Repeat specification whose [freq] is
    not a number throws an error from inside the scheduling call; no
    callback is invoked and the specification is not put in the queue. *)
Theorem repeat_without_freq_is_rejected (fuel : nat) (r : ref)
    (st : scheduler) (e : eventSpec) :
  heap st !! r = Some e → type e = TRepeat → freq e = None →
  ∃ message st',
    scheduleEvent fuel r st = Thrown (Error message r) st' ∧
    (message = "No callback was specified for scheduled event: "%string ∨
     message = "No freq was specified for scheduled event: "%string) ∧
    queue st' = queue st ∧ trace st' = trace st.
Proof.
  intros He Hty Hfq. unfold scheduleEvent, scheduleEvent_with. rewrite He.
  destruct e as [ty tm fq en cb sa pr iv]. simpl in *. subst.
  unfold normalize, expandRepeatingEventSpec, validateEventSpec.
  destruct cb, tm, sa; simpl; eexists _, _; (split; [done|]); simpl;
    split_and!; eauto.
Qed.

Lemma repeat_without_freq_is_rejected_witness :
  ∃ message st',
    scheduleEvent 1 0
      (set_heap {[0 := set_type TRepeat once_at_2]} init)
    = Thrown (Error message 0) st' ∧
    (message = "No callback was specified for scheduled event: "%string ∨
     message = "No freq was specified for scheduled event: "%string) ∧
    queue st' = [] ∧ trace st' = [].
Proof.
  apply (repeat_without_freq_is_rejected 1 0
           (set_heap {[0 := set_type TRepeat once_at_2]} init)
           (set_type TRepeat once_at_2)); reflexivity.
Defined.

(** C5 fails as stated: a Repeat specification whose [freq] is a number
    that is not positive (here -1, and 0) passes the validation and is
    put in the queue. *)
Lemma nonpositive_freq_is_scheduled :
  (∃ r st', repeat 1 (Some (Fin (-1))) (Some []) (Some (Fin 1)) None init
            = Returned r st' ∧ r ∈ queue st') ∧
  (∃ r st', repeat 1 (Some (Fin 0)) (Some []) (Some (Fin 1)) None init
            = Returned r st' ∧ r ∈ queue st') ∧
  num_pos (Fin (-1)) = false ∧ num_pos (Fin 0) = false.
Proof.
  split_and!; [| |done|done];
    (eexists _, _; split; [vm_compute; reflexivity|simpl; set_solver]).
Qed.

(** ** Changing the time scale *)

Lemma rescale_idemp (ts : num) (e : eventSpec) :
  rescale ts (rescale ts e) = rescale ts e.
Proof. done. Qed.

Lemma scale_lookup (ts : num) (items : list ref) (h : gmap ref eventSpec)
    (r : ref) :
  foldl (λ h r, alter (rescale ts) r h) h items !! r
  = if decide (r ∈ items) then rescale ts <$> h !! r else h !! r.
Proof.
  revert h. induction items as [|x items IH]; intros h; [done|].
  simpl. rewrite IH. destruct (decide (r = x)) as [->|Hne].
  - rewrite lookup_alter_eq. rewrite (decide_True _ _ (list_elem_of_here _ _)).
    destruct (decide (x ∈ items)); [|done].
    destruct (h !! x); [|done]. simpl. by rewrite rescale_idemp.
  - rewrite lookup_alter_ne by done.
    destruct (decide (r ∈ items)), (decide (r ∈ x :: items)); set_solver.
Qed.

(** C6. [setTimeScale(v)] gives every item in the queue the priority
    [scheduledAt + time * v], changes nothing else in it, invokes no
    callback and removes no item; doing it a second time changes
    nothing. *)
Theorem setTimeScale_rescales (v : num) (st : scheduler) :
  timeScale (setTimeScale v st) = v ∧
  queue (setTimeScale v st) = queue st ∧
  trace (setTimeScale v st) = trace st ∧
  (∀ r e, r ∈ queue st → heap st !! r = Some e →
     heap (setTimeScale v st) !! r
     = Some (set_priority
               (Some (num_add (to_num (scheduledAt e))
                              (num_mul (to_num (time e)) v))) e)) ∧
  (∀ r, r ∉ queue st → heap (setTimeScale v st) !! r = heap st !! r) ∧
  setTimeScale v (setTimeScale v st) = setTimeScale v st.
Proof.
  split_and!; try done.
  - intros r e Hr He. unfold setTimeScale, scaleEventTimes. simpl.
    by rewrite scale_lookup, decide_True, He.
  - intros r Hr. unfold setTimeScale, scaleEventTimes. simpl.
    by rewrite scale_lookup, decide_False.
  - unfold setTimeScale, scaleEventTimes, set_heap, set_timeScale. simpl.
    f_equal. apply map_eq. intros r. rewrite !scale_lookup.
    destruct (decide (r ∈ queue st)); [|done].
    destruct (heap st !! r); [|done]. simpl. by rewrite rescale_idemp.
Qed.

Lemma setTimeScale_rescales_witness :
  item_priority (heap (setTimeScale (Fin 3) once_queued)) 0 = Fin (0 + 2 * 3) ∧
  setTimeScale (Fin 3) (setTimeScale (Fin 3) once_queued)
  = setTimeScale (Fin 3) once_queued.
Proof.
  destruct (setTimeScale_rescales (Fin 3) once_queued)
    as (_ & _ & _ & Hq & _ & Hi).
  split; [|exact Hi]. unfold item_priority.
  rewrite (Hq 0 _ (list_elem_of_here _ _) eq_refl). reflexivity.
Defined.

(** ** Ticking twice *)

Lemma drain_exit (fuel : nat) (now ts : num) (st st' : scheduler) :
  berg_scheduler_tick fuel now ts st = Returned tt st' →
  ∀ n ts', berg_scheduler_tick (S n) now ts' st' = Returned tt st'.
Proof.
  revert st. induction fuel as [|fuel IH]; intros st; [done|].
  cbn [berg_scheduler_tick].
  destruct (PriorityQueue.peek _ _) as [next|] eqn:Hpeek.
  - destruct (num_leb (item_priority (heap st) next) now) eqn:Hdue.
    + destruct (evaluateScoreEvent _ _ _ _ _) as [[] st1| |]; [|done..].
      apply IH.
    + intros [= <-] n ts'. cbn [berg_scheduler_tick]. by rewrite Hpeek, Hdue.
  - intros [= <-] n ts'. cbn [berg_scheduler_tick]. by rewrite Hpeek.
Qed.

(** C7. When [tick(now)] has returned, a second [tick(now)] right after it
    returns at once with the state untouched: it invokes no callback. *)
Theorem tick_twice (fuel fuel' : nat) (now : num) (st st' : scheduler) :
  tick fuel now st = Returned tt st' →
  tick (S fuel') now st' = Returned tt st' ∧
  ∀ st'', tick (S fuel') now st' = Returned tt st'' → trace st'' = trace st'.
Proof.
  unfold tick. intros Hrun.
  pose proof (drain_exit _ _ _ _ _ Hrun fuel' (timeScale st')) as Hexit.
  split; [done|]. intros st''. rewrite Hexit. by intros [= <-].
Qed.

Lemma tick_twice_witness :
  tick 2 (Fin 2) once_queued = Returned tt once_fired ∧
  tick 1 (Fin 2) once_fired = Returned tt once_fired.
Proof.
  assert (Hfirst : tick 2 (Fin 2) once_queued = Returned tt once_fired)
    by reflexivity.
  split; [exact Hfirst|].
  destruct (tick_twice 2 0 (Fin 2) once_queued once_fired Hfirst)
    as [Hsecond _].
  exact Hsecond.
Defined.

(** ** Cancellation *)

Lemma clear_well_formed (r : ref) (st : scheduler) :
  well_formed st → well_formed (clear r st) ∧ r ∉ queue (clear r st).
Proof.
  intros [Hnd Hall].
  destruct (PriorityQueueFacts.remove_NoDup r _ Hnd) as [Hnd' Hr].
  split; [|done]. split; [done|]. simpl.
  rewrite Forall_forall in Hall |- *. intros x Hx.
  apply (Hall x). by apply (PriorityQueueFacts.remove_subseteq r).
Qed.

(** C8. On a well-formed scheduler, once [clear(spec)] has removed a
    pending specification no later tick invokes its callback; and
    [clear] of a specification that is not in the queue returns the
    state as it was. *)
Theorem clear_cancels (r : ref) (st : scheduler) :
  well_formed st →
  (r ∈ queue st →
   ∀ fuel nows,
     Forall (λ now, is_fin now = true) nows →
     length (queue st) ≤ fuel →
     ∃ st', run_ticks fuel nows (clear r st) = Returned tt st' ∧
            fired st' r = fired st r) ∧
  (r ∉ queue st → clear r st = st).
Proof.
  intros Hwf. split.
  - intros Hr fuel nows Hnows Hfuel.
    destruct (clear_well_formed r st Hwf) as [Hwf' Hr'].
    destruct (absent_never_fires fuel r nows Hnows (clear r st))
      as (st' & Hrun & Hf & _); [done|done| |by exists st'].
    simpl. pose proof (PriorityQueueFacts.length_remove_elem r _ Hr). lia.
  - intros Hr. unfold clear.
    by rewrite PriorityQueueFacts.remove_absent, set_queue_id.
Qed.

Lemma once_queued_well_formed : well_formed once_queued.
Proof.
  split; simpl.
  - apply NoDup_singleton.
  - apply Forall_singleton. reflexivity.
Qed.

Lemma clear_cancels_witness :
  (∃ st', run_ticks 5 [Fin 1; Fin 2; Fin 3] (clear 0 once_queued)
          = Returned tt st' ∧ fired st' 0 = []) ∧
  clear 0 (clear 0 once_queued) = clear 0 once_queued.
Proof.
  split.
  - destruct (clear_cancels 0 once_queued once_queued_well_formed)
      as [Hpending _].
    apply (Hpending (list_elem_of_here _ _) 5 [Fin 1; Fin 2; Fin 3]).
    + repeat constructor.
    + simpl. lia.
  - destruct (clear_cancels 0 (clear 0 once_queued)) as [_ Hmiss].
    + apply clear_well_formed, once_queued_well_formed.
    + apply Hmiss. apply not_elem_of_nil.
Defined.

(** ** Termination of the drain loop *)

(** C9 (as amended). [tick(now)] returns on every settled queue: no
    reference queued twice, every queued callback at most clearing its
    own event, no queued priority [NaN], and for every queued repeat
    that a firing at [now] would queue back up a priority
    [now + interval * timeScale] that compares strictly later than
    [now].  One more unit of fuel than there are queued items is enough;
    the queue it leaves is settled again and no longer, and the time
    scale is the same. *)
Theorem tick_terminates (fuel : nat) (now : num) (st : scheduler) :
  settled [now] st → length (queue st) < fuel →
  ∃ st', tick fuel now st = Returned tt st' ∧ settled [now] st' ∧
         timeScale st' = timeScale st ∧
         length (queue st') ≤ length (queue st).
Proof.
  intros Hst Hfuel.
  destruct (tick_settled fuel [now] now st) as (st' & Hrun & Hst' & Hp & _);
    [apply list_elem_of_here|done|done|].
  exists st'. split_and!; [done|done|apply Hp..].
Qed.

Lemma tick_terminates_witness :
  ∃ st', tick 2 (Fin 1) repeat_queued = Returned tt st' ∧
         settled [Fin 1] st' ∧ timeScale st' = Fin 1 ∧
         length (queue st') ≤ 1.
Proof.
  apply (tick_terminates 2 (Fin 1) repeat_queued).
  - split; [apply NoDup_singleton|]. apply Forall_singleton. reflexivity.
  - simpl. lia.
Defined.

Lemma spinning_diverges (now ts : num) (r : ref) (fuel : nat) :
  ∀ st, spinning now ts r st →
        berg_scheduler_tick fuel now ts st = OutOfFuel.
Proof.
  induction fuel as [|fuel IH]; intros st Hspin; [done|].
  destruct Hspin as (Hq & e & He & Hty & Hcb & Hend & Hdue & Hnext).
  cbn [berg_scheduler_tick]. rewrite Hq. cbn [PriorityQueue.peek
    PriorityQueue.least PriorityQueue.pop PriorityQueue.remove].
  unfold item_priority at 1. rewrite He, Hdue.
  rewrite decide_True by done.
  destruct fuel as [|n]; [done|].
  cbn [evaluateScoreEvent set_queue heap]. rewrite He, Hcb.
  cbn [run_script]. apply IH. unfold requeue. simpl. rewrite He.
  rewrite bool_decide_eq_true_2, Hend by done. simpl.
  split; [done|]. eexists. simpl. rewrite lookup_insert_eq.
  split; [done|]. simpl. split_and!; done.
Qed.

(** C9 fails as stated: [repeat(-1, callback, 1)] is accepted and queued
    for time 1; at [tick(1)] the repeat fires, is re-armed for
    [1 + (1 / -1) * 1 = 0], is due again, and so on: the drain loop never
    returns, whatever the fuel. *)
Lemma negative_freq_tick_diverges :
  ∃ r st, repeat 1 (Some (Fin (-1))) (Some []) (Some (Fin 1)) None init
          = Returned r st ∧
          ∀ fuel, tick fuel (Fin 1) st = OutOfFuel.
Proof.
  eexists _, _. split; [vm_compute; reflexivity|].
  intros fuel. apply (spinning_diverges (Fin 1) (Fin 1) 0).
  split; [done|]. eexists. split; [reflexivity|]. split_and!; done.
Qed.

(** The same with a time scale of zero: a repeat at 1 Hz queued for time
    1 is rescaled to priority 0 by [setTimeScale(0)] and re-armed for
    [now + 1 * 0 = now] at every firing. *)
Example zero_time_scale_tick_diverges :
  ∃ r st, repeat 1 (Some (Fin 1)) (Some []) (Some (Fin 1)) None init
          = Returned r st ∧
          ∀ fuel, tick fuel (Fin 1) (setTimeScale (Fin 0) st) = OutOfFuel.
Proof.
  eexists _, _. split; [vm_compute; reflexivity|].
  intros fuel. apply (spinning_diverges (Fin 1) (Fin 0) 0).
  split; [done|]. eexists. split; [reflexivity|]. split_and!; done.
Qed.

(** ** Clearing an event from inside its own callback *)

(** A callback that only clears its own event changes nothing but the
    queue, and not even the queue when its event is not in it. *)
Lemma run_script_clears_own eval (r : ref) (script : list action)
    (st : scheduler) :
  forallb (clears_self r) script = true →
  ∃ q, run_script eval r script st = Returned tt (set_queue q st) ∧
       (r ∉ queue st → q = queue st).
Proof.
  revert st. induction script as [|a script IH]; intros st; simpl.
  - intros _. exists (queue st). by rewrite set_queue_id.
  - intros [Ha Hs]%andb_true_iff.
    destruct a as [t|t| |v]; simpl in Ha; try done.
    apply bool_decide_eq_true in Ha. simpl. rewrite Ha.
    destruct (IH (clear r st) Hs) as (q & Hrun & Hq).
    exists q. split; [by rewrite Hrun|].
    intros Hr. rewrite Hq; simpl;
      by rewrite PriorityQueueFacts.remove_absent.
Qed.

(** C10. A Repeat specification whose callback calls [clear] on its own
    event, fired at a time before its end, is in the queue again when
    the evaluation returns, re-armed at [now + interval * timeScale]: the
    event is not in the queue while its callback runs, so the [clear]
    removes nothing.  And it does fire again, at the next tick that
    reaches the new priority. *)
Theorem clear_in_own_callback (n : nat) (r : ref) (now : num)
    (st : scheduler) (e : eventSpec) (script : list action) :
  heap st !! r = Some e → type e = TRepeat →
  callback e = Some script → script ≠ [] →
  forallb (clears_self r) script = true →
  num_gtb (to_num (end_ e)) now = true →
  ∃ st', evaluateScoreEvent (S n) r now (timeScale st) st = Returned tt st' ∧
    r ∈ queue st' ∧
    heap st' !! r = Some (rearmed now (timeScale st) e) ∧
    fired st' r = fired st r ++ [now] ∧
    (well_formed st → r ∉ queue st → is_fin now = true →
     num_pos (num_mul (to_num (interval e)) (timeScale st)) = true →
     ∀ fuel now',
       is_fin now' = true →
       num_leb (calcPriority now (to_num (interval e)) (timeScale st)) now'
       = true →
       S (length (queue st)) < fuel →
       ∃ st'', tick fuel now' st' = Returned tt st'' ∧
               fired st'' r = fired st' r ++ [now']).
Proof.
  intros He Hty Hcb _ Hown Hend. cbn [evaluateScoreEvent]. rewrite He, Hcb.
  destruct (run_script_clears_own (evaluateScoreEvent n) r script
              (record_call r now st) Hown) as (q & -> & Hq).
  eexists. split; [done|]. unfold requeue. simpl. rewrite He.
  rewrite bool_decide_eq_true_2, Hend by done. simpl.
  split_and!.
  - unfold PriorityQueue.push. set_solver.
  - by rewrite lookup_insert_eq.
  - unfold fired. simpl. rewrite filter_app, fmap_app, filter_cons, filter_nil.
    simpl. by rewrite decide_True.
  - intros [Hnd Hall] Hr Hnow Hpos fuel now' Hnow' Hreach Hfuel.
    rewrite (Hq Hr). unfold PriorityQueue.push.
    destruct (num_add_pos_later now _ Hnow Hpos) as [_ Hnan].
    match goal with |- ∃ st'', tick fuel now' ?s = _ ∧ _ => set (st' := s) end.
    assert (Hwf' : well_formed st').
    { split; simpl.
      - apply NoDup_app. split_and!; [done| |apply NoDup_singleton].
        intros x Hx ->%list_elem_of_singleton. done.
      - apply Forall_app. split.
        + rewrite Forall_forall in Hall |- *. intros x Hx.
          specialize (Hall x Hx). unfold item_ok in *. simpl.
          rewrite lookup_insert_ne; [done|]. by intros ->.
        + apply Forall_singleton. unfold item_ok. simpl.
          rewrite lookup_insert_eq. unfold queued_ok, own_callback. simpl.
          rewrite Hcb, Hown. unfold calcPriority. rewrite Hnan. simpl.
          by rewrite bool_decide_eq_true_2. }
    destruct (tick_spec fuel now' st' Hnow' Hwf') as (st'' & Hrun & Hp & _).
    { subst st'. simpl. rewrite length_app. simpl. lia. }
    exists st''. split; [done|].
    destruct Hp as [_ _ _ _ _ Pdue].
    destruct (Pdue r (rearmed now (timeScale st) e)) as [Hf _]; [| | |done].
    + subst st'. simpl. set_solver.
    + subst st'. unfold due, item_priority. simpl.
      by rewrite lookup_insert_eq.
    + subst st'. simpl. by rewrite lookup_insert_eq.
Qed.

Lemma clear_in_own_callback_witness :
  ∃ st' st'',
    evaluateScoreEvent 1 0 (Fin 1) (Fin 1)
      (set_heap {[0 := self_clearing]} init) = Returned tt st' ∧
    queue st' = [0] ∧ fired st' 0 = [Fin 1] ∧
    tick 3 (Fin 2) st' = Returned tt st'' ∧
    fired st'' 0 = [Fin 1; Fin 2].
Proof.
  destruct (clear_in_own_callback 0 0 (Fin 1)
              (set_heap {[0 := self_clearing]} init) self_clearing
              [ActClear Self])
    as (st' & Hrun & _ & _ & Hfired & Hagain).
  - reflexivity.
  - reflexivity.
  - reflexivity.
  - discriminate.
  - reflexivity.
  - reflexivity.
  - destruct (Hagain (init_well_formed _) (not_elem_of_nil _)
                eq_refl eq_refl 3 (Fin 2) eq_refl eq_refl)
      as (st'' & Hrun' & Hfired').
    + simpl. lia.
    + exists st', st''. split; [exact Hrun|].
      injection Hrun as <-.
      split; [reflexivity|]. split; [reflexivity|].
      split; [exact Hrun'|]. exact Hfired'.
Defined.

(** ** Validation, case by case *)

Lemma validate_no_callback (e : eventSpec) :
  callback e = None →
  validateEventSpec e
  = Some "No callback was specified for scheduled event: "%string.
Proof.
  unfold validateEventSpec. intros ->. by rewrite bool_decide_eq_true_2.
Qed.

Lemma normalize_scheduledAt (now : num) (e : eventSpec) :
  scheduledAt (normalize now e) = Some (default now (scheduledAt e)).
Proof.
  destruct e as [ty tm fq en cb sa pr iv]. unfold normalize.
  destruct ty, tm, sa; reflexivity.
Qed.

Lemma normalize_not_repeat (now : num) (e : eventSpec) :
  type e ≠ TRepeat →
  type (normalize now e) ≠ TRepeat ∧ time (normalize now e) = time e.
Proof.
  destruct e as [ty tm fq en cb sa pr iv]. unfold normalize. simpl.
  intros Hty. destruct ty, sa; done.
Qed.

(** X1. Scheduling a specification whose callback is not a function
    throws "No callback was specified", whatever its type, time and
    frequency.  Nothing is queued and nothing is invoked, but the failed
    attempt leaves its marks on the object: it has been normalized, and
    its [scheduledAt] is a number from then on.  No other object is
    touched. *)
Theorem schedule_without_callback (fuel : nat) (r : ref) (st : scheduler)
    (e : eventSpec) :
  heap st !! r = Some e → callback e = None →
  ∃ st',
    scheduleEvent fuel r st
    = Thrown (Error "No callback was specified for scheduled event: " r) st' ∧
    queue st' = queue st ∧ trace st' = trace st ∧
    heap st' !! r = Some (normalize (clock st) e) ∧
    scheduledAt (normalize (clock st) e)
    = Some (default (clock st) (scheduledAt e)) ∧
    ∀ x, x ≠ r → heap st' !! x = heap st !! x.
Proof.
  intros He Hcb. unfold scheduleEvent, scheduleEvent_with. rewrite He.
  rewrite validate_no_callback by (by rewrite normalize_callback).
  eexists. split; [done|]. simpl. split_and!; try done.
  - by rewrite lookup_insert_eq.
  - apply normalize_scheduledAt.
  - intros x Hx. by rewrite lookup_insert_ne.
Qed.

Lemma schedule_without_callback_witness :
  ∃ st',
    scheduleEvent 1 0 (set_heap {[0 := no_callback]} init)
    = Thrown (Error "No callback was specified for scheduled event: " 0) st' ∧
    queue st' = [] ∧ trace st' = [] ∧
    item_priority (heap st') 0 = NaN.
Proof.
  destruct (schedule_without_callback 1 0
              (set_heap {[0 := no_callback]} init) no_callback)
    as (st' & Hrun & Hq & Ht & Hh & _); [reflexivity..|].
  exists st'. split_and!; [done..|].
  unfold item_priority. rewrite Hh. reflexivity.
Defined.

(** X2. Scheduling a specification that is not a repeat, has a callback
    and has no numeric time throws "No time was specified"; nothing is
    queued and nothing is invoked. *)
Theorem schedule_without_time (fuel : nat) (r : ref) (st : scheduler)
    (e : eventSpec) :
  heap st !! r = Some e → type e ≠ TRepeat →
  is_Some (callback e) → time e = None →
  ∃ st',
    scheduleEvent fuel r st
    = Thrown (Error "No time was specified for scheduled event: " r) st' ∧
    queue st' = queue st ∧ trace st' = trace st.
Proof.
  intros He Hty [cb Hcb] Htm. unfold scheduleEvent, scheduleEvent_with.
  rewrite He. destruct (normalize_not_repeat (clock st) e Hty) as [Nty Ntm].
  unfold validateEventSpec. rewrite normalize_callback, Hcb, Ntm, Htm.
  rewrite (bool_decide_eq_false_2 (Some _ = None)) by done.
  rewrite (bool_decide_eq_false_2 (_ = TRepeat)) by done. simpl.
  by eexists.
Qed.

Lemma schedule_without_time_witness :
  ∃ st',
    scheduleEvent 1 0 (set_heap {[0 := set_time None once_at_2]} init)
    = Thrown (Error "No time was specified for scheduled event: " 0) st' ∧
    queue st' = [] ∧ trace st' = [].
Proof.
  apply (schedule_without_time 1 0
           (set_heap {[0 := set_time None once_at_2]} init)
           (set_time None once_at_2)).
  - reflexivity.
  - discriminate.
  - eexists. reflexivity.
  - reflexivity.
Defined.

(** X3. A Repeat specification without a numeric time is not rejected:
    its time becomes 0, so under a finite clock and time scale it is due
    at once; its callback is invoked inside the scheduling call with the
    clock time, and it is queued afterwards exactly when its end is later
    than the clock. *)
Theorem repeat_without_time_fires_at_once (n : nat) (r : ref)
    (st : scheduler) (e : eventSpec) (c x : Q) :
  heap st !! r = Some e → type e = TRepeat → time e = None →
  is_Some (freq e) → own_callback r e = true → r ∉ queue st →
  clock st = Fin c → timeScale st = Fin x →
  ∃ st' e',
    scheduleEvent (S n) r st = Returned r st' ∧
    trace st' = trace st ++ [(r, Fin c)] ∧
    heap st' !! r = Some e' ∧ time e' = Some (Fin 0) ∧
    (r ∈ queue st' ↔
     num_gtb (match end_ e with
              | Some v => num_add v (Fin c)
              | None => PInf
              end) (Fin c) = true).
Proof.
  intros He Hty Htm [f Hfq] Hcb Hr Hck Hts.
  assert (Hnorm : type (normalize (clock st) e) = TRepeat ∧
                  time (normalize (clock st) e) = Some (Fin 0) ∧
                  freq (normalize (clock st) e) = Some f ∧
                  end_ (normalize (clock st) e)
                  = Some (match end_ e with
                          | Some v => num_add v (Fin c)
                          | None => PInf
                          end)).
  { destruct e as [ty tm fq en cb sa pr iv]. simpl in *. subst.
    rewrite Hck. unfold normalize, expandRepeatingEventSpec. simpl.
    by destruct sa, en. }
  destruct Hnorm as (Nty & Ntm & Nfq & Nen).
  rewrite (scheduleEvent_valid (S n) r st e He).
  2:{ apply validate_ok; [|by rewrite Ntm|by rewrite Nfq].
      rewrite normalize_callback. by eapply own_callback_is_Some. }
  cbn zeta.
  assert (Hpr : to_num (priority (submitted st e)) = Fin (c + 0 * x)).
  { unfold submitted. simpl. by rewrite Ntm, Hck, Hts. }
  rewrite Hpr, Hck. simpl num_leb.
  assert (Hle : Qle_bool (c + 0 * x) c = true) by (apply Qle_bool_iff; lra).
  rewrite Hle.
  rewrite (evaluate_own n r (Fin c) (timeScale st) _ (submitted st e));
    [|by simpl; rewrite lookup_insert_eq| |done].
  2:{ unfold own_callback in *. unfold submitted. simpl.
      by rewrite normalize_callback. }
  unfold requeue. simpl. rewrite lookup_insert_eq.
  assert (Hre : bool_decide (type (submitted st e) = TRepeat) = true).
  { apply bool_decide_eq_true. unfold submitted. simpl. done. }
  rewrite Hre. simpl andb.
  rewrite Nen. simpl to_num.
  destruct (num_gtb _ (Fin c)) eqn:Hgt; simpl.
  - eexists _, _. split; [done|]. simpl. split_and!; [done| | |].
    + by rewrite lookup_insert_eq.
    + exact Ntm.
    + unfold PriorityQueue.push. set_solver.
  - eexists _, _. split; [done|]. simpl. split_and!; [done| | |].
    + by rewrite lookup_insert_eq.
    + exact Ntm.
    + naive_solver.
Qed.

Lemma repeat_without_time_fires_at_once_witness :
  ∃ st' e',
    scheduleEvent 1 0 (set_heap {[0 := repeat_untimed]} init)
    = Returned 0 st' ∧
    trace st' = [(0, Fin 0)] ∧
    heap st' !! 0 = Some e' ∧ time e' = Some (Fin 0) ∧
    (0 ∈ queue st' ↔ num_gtb PInf (Fin 0) = true).
Proof.
  apply (repeat_without_time_fires_at_once 0 0
           (set_heap {[0 := repeat_untimed]} init) repeat_untimed 0 1).
  - reflexivity.
  - reflexivity.
  - reflexivity.
  - eexists. reflexivity.
  - reflexivity.
  - apply not_elem_of_nil.
  - reflexivity.
  - reflexivity.
Defined.

(** ** Batches *)

Lemma scheduleEvent_later (fuel : nat) (r : ref) (st : scheduler)
    (e : eventSpec) :
  heap st !! r = Some e → queues_later st r = true →
  scheduleEvent fuel r st
  = Returned r (set_queue (queue st ++ [r])
                  (set_heap (<[r := submitted st e]> (heap st)) st)).
Proof.
  intros He. unfold queues_later. rewrite He.
  intros [Hv%bool_decide_eq_true Hl%negb_true_iff]%andb_true_iff.
  rewrite (scheduleEvent_valid fuel r st e He Hv). cbn zeta. by rewrite Hl.
Qed.

Lemma scheduleEvents_app (fuel : nat) (l1 l2 : list ref) (st : scheduler) :
  scheduleEvents fuel (l1 ++ l2) st
  = match scheduleEvents fuel l1 st with
    | Returned _ st1 => scheduleEvents fuel l2 st1
    | Thrown err st1 => Thrown err st1
    | OutOfFuel => OutOfFuel
    end.
Proof.
  revert st. induction l1 as [|r l1 IH]; intros st; [done|]. simpl.
  destruct (scheduleEvent fuel r st) as [r' st1|err st1|]; [apply IH|done..].
Qed.

Lemma scheduleEvents_later (fuel : nat) (rs : list ref) :
  NoDup rs →
  ∀ st, Forall (λ r, queues_later st r = true) rs →
  ∃ st', scheduleEvents fuel rs st = Returned tt st' ∧
         queue st' = queue st ++ rs ∧ trace st' = trace st ∧
         clock st' = clock st ∧ timeScale st' = timeScale st ∧
         ∀ x, x ∉ rs → heap st' !! x = heap st !! x.
Proof.
  induction 1 as [|r rs Hr Hnd IH]; intros st Hall.
  - exists st. split_and!; try done. by rewrite app_nil_r.
  - apply Forall_cons in Hall as [Hl Hall].
    assert (∃ e, heap st !! r = Some e) as [e He].
    { unfold queues_later in Hl. destruct (heap st !! r); [eauto|done]. }
    simpl. rewrite (scheduleEvent_later fuel r st e He Hl).
    match goal with |- context [scheduleEvents fuel rs ?s] => set (st1 := s) end.
    destruct (IH st1) as (st' & Hrun & Hq & Ht & Hc & Hts & Hh).
    { rewrite Forall_forall in Hall |- *. intros x Hx.
      specialize (Hall x Hx). unfold queues_later in *. subst st1. simpl.
      rewrite lookup_insert_ne; [done|]. by intros ->. }
    exists st'. split_and!; try done.
    + rewrite Hq. subst st1. simpl. by rewrite <- app_assoc.
    + intros x Hx. rewrite Hh by set_solver. subst st1. simpl.
      rewrite lookup_insert_ne; [done|]. set_solver.
Qed.

(** X4. [schedule] of an array of distinct valid specifications whose
    priorities are later than the clock pushes all of them, in the order
    of the array, invokes no callback, touches no other object, and
    returns the array. *)
Theorem schedule_batch_queues_in_order (fuel : nat) (rs : list ref)
    (st : scheduler) :
  NoDup rs → Forall (λ r, queues_later st r = true) rs →
  ∃ st', schedule fuel (Many rs) st = Returned (Many rs) st' ∧
         queue st' = queue st ++ rs ∧ trace st' = trace st ∧
         ∀ x, x ∉ rs → heap st' !! x = heap st !! x.
Proof.
  intros Hnd Hall.
  destruct (scheduleEvents_later fuel rs Hnd st Hall)
    as (st' & Hrun & Hq & Ht & _ & _ & Hh).
  exists st'. simpl. by rewrite Hrun.
Qed.

Lemma schedule_batch_queues_in_order_witness :
  ∃ st', schedule 0 (Many [2; 0; 1]) three_pending = Returned (Many [2; 0; 1]) st' ∧
         queue st' = [2; 0; 1] ∧ trace st' = [] ∧
         ∀ x, x ∉ [2; 0; 1] → heap st' !! x = heap three_pending !! x.
Proof.
  apply (schedule_batch_queues_in_order 0 [2; 0; 1] three_pending).
  - decide_closed.
  - repeat constructor.
Defined.

(** X5. [schedule] of an array is not atomic: when a specification fails
    validation, the distinct valid ones before it stay queued, the error
    is the one of the failing specification, and the specifications
    after it are never looked at. *)
Theorem schedule_batch_no_rollback (fuel : nat) (rs rest : list ref)
    (bad : ref) (e : eventSpec) (message : string) (st : scheduler) :
  NoDup rs → Forall (λ r, queues_later st r = true) rs → bad ∉ rs →
  heap st !! bad = Some e →
  validateEventSpec (normalize (clock st) e) = Some message →
  ∃ st', schedule fuel (Many (rs ++ bad :: rest)) st
         = Thrown (Error message bad) st' ∧
         queue st' = queue st ++ rs ∧ trace st' = trace st ∧
         ∀ x, x ∉ rs → x ≠ bad → heap st' !! x = heap st !! x.
Proof.
  intros Hnd Hall Hbad He Hv.
  destruct (scheduleEvents_later fuel rs Hnd st Hall)
    as (st1 & Hrun & Hq & Ht & Hc & _ & Hh).
  simpl. rewrite scheduleEvents_app, Hrun. simpl.
  unfold scheduleEvent, scheduleEvent_with.
  rewrite (Hh bad Hbad), He, Hc, Hv.
  eexists. split; [done|]. simpl. split_and!; [done..|].
  intros x Hx Hne. rewrite lookup_insert_ne by done. by apply Hh.
Qed.

Lemma schedule_batch_no_rollback_witness :
  ∃ st', schedule 0 (Many ([0; 1] ++ 3 :: [2])) three_pending
         = Thrown (Error "No callback was specified for scheduled event: " 3)
             st' ∧
         queue st' = [0; 1] ∧ trace st' = [] ∧
         ∀ x, x ∉ [0; 1] → x ≠ 3 → heap st' !! x = heap three_pending !! x.
Proof.
  apply (schedule_batch_no_rollback 0 [0; 1] [2] 3 no_callback _ three_pending).
  - decide_closed.
  - repeat constructor.
  - decide_closed.
  - reflexivity.
  - reflexivity.
Defined.

(** ** Emptying the queue *)

Lemma run_ticks_empty (n : nat) (nows : list num) :
  ∀ st, queue st = [] →
  ∃ st', run_ticks (S n) nows st = Returned tt st' ∧
         trace st' = trace st ∧ queue st' = [] ∧ heap st' = heap st ∧
         timeScale st' = timeScale st.
Proof.
  induction nows as [|now nows IH]; intros st Hq; [by exists st|].
  simpl. unfold clock_tick, tick. cbn [berg_scheduler_tick]. simpl.
  rewrite Hq. simpl.
  destruct (IH (set_clock now st) Hq) as (st' & Hrun & Ht & Hq' & Hh & Hts).
  by exists st'.
Qed.

(** X6. After [clearAll] no tick invokes anything: whatever was queued,
    every later sequence of ticks returns with the trace of invocations,
    the objects and the time scale unchanged and the queue still empty. *)
Theorem clearAll_silences (fuel : nat) (nows : list num) (st : scheduler) :
  0 < fuel →
  ∃ st', run_ticks fuel nows (clearAll st) = Returned tt st' ∧
         trace st' = trace st ∧ queue st' = [] ∧ heap st' = heap st ∧
         timeScale st' = timeScale st.
Proof.
  intros Hfuel. destruct fuel as [|n]; [lia|].
  by apply (run_ticks_empty n nows (clearAll st)).
Qed.

Lemma clearAll_silences_witness :
  ∃ st', run_ticks 1 [Fin 5; Fin 7] (clearAll three_queued) = Returned tt st' ∧
         trace st' = [] ∧ queue st' = [] ∧ heap st' = heap three_queued ∧
         timeScale st' = Fin 1.
Proof. apply (clearAll_silences 1 [Fin 5; Fin 7] three_queued). lia. Defined.

(** ** Draining *)

(** X7. On a well-formed scheduler one [tick(now)] drains everything that
    is due: when it returns no queued item has a priority [<= now], every
    item that was due has been invoked exactly once, with [now], and
    every item that was not due is still queued, unchanged and not
    invoked. *)
Theorem tick_drains (fuel : nat) (now : num) (st : scheduler) :
  is_fin now = true → well_formed st → length (queue st) < fuel →
  ∃ st', tick fuel now st = Returned tt st' ∧
    (∀ r, r ∈ queue st' → due now st' r = false) ∧
    (∀ r, r ∈ queue st → due now st r = true →
          fired st' r = fired st r ++ [now]) ∧
    (∀ r, r ∈ queue st → due now st r = false →
          fired st' r = fired st r ∧ heap st' !! r = heap st !! r ∧
          r ∈ queue st').
Proof.
  intros Hnow Hwf Hfuel.
  destruct (tick_spec fuel now st Hnow Hwf Hfuel) as (st' & Hrun & Hp & _).
  destruct Hp as [_ _ _ Pdr Pidle Pdue].
  exists st'. split_and!; [done|done| |].
  - intros r Hr Hd. destruct (item_ok_elem st r Hwf Hr) as (e & He & _).
    by destruct (Pdue r e Hr Hd He).
  - intros r Hr Hd. destruct (Pidle r (or_intror Hd)) as (Hh & Hq & Hf).
    split_and!; [done|done|by apply Hq].
Qed.

Lemma three_queued_well_formed : well_formed three_queued.
Proof.
  split.
  - decide_closed.
  - repeat constructor.
Qed.

Lemma tick_drains_witness :
  ∃ st', tick 4 (Fin 5) three_queued = Returned tt st' ∧
    fired st' 0 = [Fin 5] ∧ fired st' 1 = [Fin 5] ∧
    fired st' 2 = [] ∧ 2 ∈ queue st'.
Proof.
  destruct (tick_drains 4 (Fin 5) three_queued) as (st' & Hrun & _ & Hd & Hi).
  - reflexivity.
  - apply three_queued_well_formed.
  - simpl. lia.
  - exists st'. split; [exact Hrun|].
    assert (H0 : 0 ∈ queue three_queued) by (simpl; set_solver).
    assert (H1 : 1 ∈ queue three_queued) by (simpl; set_solver).
    assert (H2 : 2 ∈ queue three_queued) by (simpl; set_solver).
    split; [exact (Hd 0 H0 eq_refl)|]. split; [exact (Hd 1 H1 eq_refl)|].
    destruct (Hi 2 H2 eq_refl) as (Hf & _ & Hq). split; [exact Hf|exact Hq].
Defined.

(** ** Time scale changes and pending events *)

Lemma setTimeScale_lookup (v : num) (st : scheduler) (r : ref) :
  heap (setTimeScale v st) !! r
  = if decide (r ∈ queue st) then rescale v <$> heap st !! r
    else heap st !! r.
Proof. unfold setTimeScale, scaleEventTimes. simpl. apply scale_lookup. Qed.

(** X8. A pending event that is not a repeat and is alone in the queue,
    after [setTimeScale(v)], fires at the first tick that reaches
    [scheduledAt + time * v] and only then: the scale at submission no
    longer matters. *)
Theorem rescaled_once_fires (fuel : nat) (r : ref) (v : num)
    (st : scheduler) (e : eventSpec) (nows : list num) :
  well_formed (setTimeScale v st) → queue st = [r] →
  heap st !! r = Some e → type e ≠ TRepeat →
  Forall (λ now, is_fin now = true) nows →
  1 < fuel →
  ∃ st', run_ticks fuel nows (setTimeScale v st) = Returned tt st' ∧
         fired st' r
         = fired st r
           ++ take 1 (filter
                        (λ now, num_leb
                                  (calcPriority (to_num (scheduledAt e))
                                     (to_num (time e)) v) now = true) nows).
Proof.
  intros Hwf Hq He Hty Hnows Hfuel.
  assert (Hr : r ∈ queue st) by (rewrite Hq; apply list_elem_of_here).
  destruct (once_track fuel r
              (calcPriority (to_num (scheduledAt e)) (to_num (time e)) v)
              nows Hnows (setTimeScale v st) (rescale v e))
    as (st' & Hrun & Hf & _); try done.
  - by rewrite setTimeScale_lookup, decide_True, He.
  - simpl. rewrite Hq. simpl. lia.
  - by exists st'.
Qed.

Lemma rescaled_once_fires_witness :
  ∃ st', run_ticks 2 [Fin 2; Fin 6; Fin 7] (setTimeScale (Fin 3) once_queued)
         = Returned tt st' ∧
         fired st' 0 = [Fin 6].
Proof.
  apply (rescaled_once_fires 2 0 (Fin 3) once_queued
           (set_priority (Some (Fin 2))
              (set_scheduledAt (Some (Fin 0)) once_at_2))
           [Fin 2; Fin 6; Fin 7]).
  - split; [apply NoDup_singleton|]. apply Forall_singleton. reflexivity.
  - reflexivity.
  - reflexivity.
  - discriminate.
  - repeat constructor.
  - lia.
Defined.

(** X9. Time scale changes do not accumulate: [setTimeScale(v1)] followed
    by [setTimeScale(v2)] leaves the scheduler exactly as
    [setTimeScale(v2)] alone does, since every priority is recomputed
    from [scheduledAt] and [time], never from the previous priority. *)
Theorem setTimeScale_last_wins (v1 v2 : num) (st : scheduler) :
  setTimeScale v2 (setTimeScale v1 st) = setTimeScale v2 st.
Proof.
  unfold setTimeScale, scaleEventTimes, set_heap, set_timeScale. simpl.
  f_equal. apply map_eq. intros r. rewrite !scale_lookup.
  destruct (decide (r ∈ queue st)); [|done].
  by destruct (heap st !! r).
Qed.

(** X10. The priority given at submission and the one a time scale
    change computes agree only when the specification carried no
    [scheduledAt]: after a specification has been queued,
    [setTimeScale] with the current scale gives it the priority
    [scheduledAt + time * timeScale] for the [scheduledAt] it holds, which
    leaves the object as it is when [scheduledAt] was set by this
    submission. *)
Theorem rescale_after_schedule (fuel : nat) (r : ref) (st : scheduler)
    (e : eventSpec) :
  heap st !! r = Some e → queues_later st r = true →
  ∃ st1, scheduleEvent fuel r st = Returned r st1 ∧
    heap (setTimeScale (timeScale st) st1) !! r
    = Some (set_priority
              (Some (calcPriority (default (clock st) (scheduledAt e))
                       (to_num (time (normalize (clock st) e)))
                       (timeScale st)))
              (submitted st e)) ∧
    (scheduledAt e = None →
     heap (setTimeScale (timeScale st) st1) !! r = heap st1 !! r).
Proof.
  intros He Hl. rewrite (scheduleEvent_later fuel r st e He Hl).
  eexists. split; [done|].
  assert (Hlook : ∀ h : gmap ref eventSpec,
            (<[r := submitted st e]> h) !! r = Some (submitted st e))
    by (intros h; apply lookup_insert_eq).
  rewrite setTimeScale_lookup. simpl.
  rewrite decide_True by set_solver. rewrite Hlook. simpl.
  unfold rescale, submitted. simpl. rewrite normalize_scheduledAt. simpl.
  split; [done|]. by intros ->.
Qed.

Lemma rescale_after_schedule_witness :
  ∃ st1, scheduleEvent 0 2 three_pending = Returned 2 st1 ∧
         heap (setTimeScale (Fin 1) st1) !! 2 = heap st1 !! 2.
Proof.
  destruct (rescale_after_schedule 0 2 three_pending (once_at 7))
    as (st1 & Hrun & _ & Hsame); [reflexivity..|].
  exists st1. split; [exact Hrun|]. apply Hsame. reflexivity.
Defined.

(** ** The [once] wrapper *)

(** X11. [once(time, callback)] with a priority later than the clock
    builds a new object, distinct from every object there was, pushes it
    at the end of the queue and returns it; it invokes nothing and leaves
    every other object as it was.  The new object is a Once
    specification with the given time and callback, scheduled at the
    clock time. *)
Theorem once_allocates (fuel : nat) (t : num) (script : list action)
    (st : scheduler) :
  num_gtb (calcPriority (clock st) t (timeScale st)) (clock st) = true →
  ∃ r st' e',
    once fuel (Some t) (Some script) st = Returned r st' ∧
    heap st !! r = None ∧
    queue st' = queue st ++ [r] ∧ trace st' = trace st ∧
    (∀ x, x ≠ r → heap st' !! x = heap st !! x) ∧
    heap st' !! r = Some e' ∧
    type e' = TOnce ∧ time e' = Some t ∧ callback e' = Some script ∧
    scheduledAt e' = Some (clock st) ∧
    priority e' = Some (calcPriority (clock st) t (timeScale st)).
Proof.
  intros [Hlater _]%num_gtb_later. unfold once, new_object.
  set (r := fresh (dom (heap st))).
  set (e0 := {| type := TOnce; time := Some t; freq := None; end_ := None;
                callback := Some script; scheduledAt := None;
                priority := None; interval := None |}).
  set (st1 := set_heap (<[r := e0]> (heap st)) st).
  assert (He0 : heap st1 !! r = Some e0) by apply lookup_insert_eq.
  rewrite (scheduleEvent_later fuel r st1 e0 He0).
  2:{ unfold queues_later. rewrite He0. apply andb_true_iff. split.
      - by apply bool_decide_eq_true.
      - apply negb_true_iff. exact Hlater. }
  eexists r, _, _. split; [done|]. simpl. split_and!; try done.
  - apply not_elem_of_dom, is_fresh.
  - intros x Hx. by rewrite !lookup_insert_ne.
  - apply lookup_insert_eq.
  - reflexivity.
  - reflexivity.
  - reflexivity.
  - reflexivity.
  - reflexivity.
Qed.

Lemma once_allocates_witness :
  ∃ r st' e',
    once 0 (Some (Fin 2)) (Some []) three_queued = Returned r st' ∧
    heap three_queued !! r = None ∧
    queue st' = [0; 1; 2] ++ [r] ∧ trace st' = [] ∧
    (∀ x, x ≠ r → heap st' !! x = heap three_queued !! x) ∧
    heap st' !! r = Some e' ∧
    type e' = TOnce ∧ time e' = Some (Fin 2) ∧ callback e' = Some [] ∧
    scheduledAt e' = Some (Fin 0) ∧
    priority e' = Some (calcPriority (Fin 0) (Fin 2) (Fin 1)).
Proof. apply (once_allocates 0 (Fin 2) [] three_queued). reflexivity. Defined.

(** ** A callback that changes the time scale *)

(** X12. When the callback of a repeat calls [setTimeScale(v)], every
    queued item is rescaled with [v] at once, but the repeat itself, which
    is out of the queue while its callback runs, is re-armed afterwards
    with the time scale the evaluation started with: its new priority is
    [now + interval * old scale] although the scheduler's scale is [v]. *)
Theorem scale_change_in_callback (n : nat) (r : ref) (now v : num)
    (st : scheduler) (e : eventSpec) :
  heap st !! r = Some e → type e = TRepeat →
  callback e = Some [ActSetTimeScale v] → r ∉ queue st →
  num_gtb (to_num (end_ e)) now = true →
  ∃ st', evaluateScoreEvent (S n) r now (timeScale st) st = Returned tt st' ∧
    timeScale st' = v ∧
    heap st' !! r = Some (rearmed now (timeScale st) e) ∧
    queue st' = queue st ++ [r] ∧
    ∀ x ex, x ∈ queue st → heap st !! x = Some ex →
            heap st' !! x = Some (rescale v ex).
Proof.
  intros He Hty Hcb Hr Hend. cbn [evaluateScoreEvent]. rewrite He, Hcb.
  cbn [run_script run_action].
  assert (Hlook : heap (setTimeScale v (record_call r now st)) !! r = Some e).
  { rewrite setTimeScale_lookup. simpl. by rewrite decide_False. }
  unfold requeue. rewrite Hlook.
  rewrite bool_decide_eq_true_2, Hend by done. simpl.
  eexists. split; [done|]. simpl. split_and!; try done.
  - by rewrite lookup_insert_eq.
  - intros x ex Hx Hex. rewrite lookup_insert_ne by (by intros ->).
    by rewrite scale_lookup, decide_True, Hex.
Qed.

Lemma scale_change_in_callback_witness :
  ∃ st', evaluateScoreEvent 1 0 (Fin 1) (Fin 1)
           (set_heap {[0 := set_callback (Some [ActSetTimeScale (Fin 4)])
                              self_clearing]} init) = Returned tt st' ∧
         timeScale st' = Fin 4 ∧
         item_priority (heap st') 0 = Fin (1 + (1 # 2) * 1).
Proof.
  destruct (scale_change_in_callback 0 0 (Fin 1) (Fin 4)
              (set_heap {[0 := set_callback (Some [ActSetTimeScale (Fin 4)])
                                 self_clearing]} init)
              (set_callback (Some [ActSetTimeScale (Fin 4)]) self_clearing))
    as (st' & Hrun & Hts & Hh & _).
  - reflexivity.
  - reflexivity.
  - reflexivity.
  - apply not_elem_of_nil.
  - reflexivity.
  - exists st'. split; [exact Hrun|]. split; [exact Hts|].
    unfold item_priority. rewrite Hh. reflexivity.
Defined.

(** ** Repeats that fire only once *)

Lemma never_due_track (fuel : nat) (r : ref) (p : num) (nows : list num) :
  Forall (λ now, is_fin now = true) nows →
  Forall (λ now, num_leb p now = false) nows →
  ∀ st e, well_formed st → r ∈ queue st → heap st !! r = Some e →
    to_num (priority e) = p → length (queue st) < fuel →
    ∃ st', run_ticks fuel nows st = Returned tt st' ∧
           fired st' r = fired st r ∧ heap st' !! r = Some e ∧
           r ∈ queue st'.
Proof.
  induction 1 as [|now nows Hnow Hnows IH];
    intros Hlater st e Hwf Hr He Hp Hfuel.
  - by exists st.
  - apply Forall_cons in Hlater as [Hl Hlater].
    destruct (clock_tick_spec fuel now st Hnow Hwf Hfuel)
      as (st1 & Hrun & Hp1 & _).
    destruct Hp1 as [Pwf _ Plen _ Pidle _]. simpl. rewrite Hrun.
    assert (Hdue : due now st r = false).
    { unfold due, item_priority. by rewrite He, Hp. }
    destruct (Pidle r (or_intror Hdue)) as (Hh & Hq & Hf).
    destruct (IH Hlater st1 e) as (st' & Hrun' & Hf' & Hh' & Hq');
      [done|by apply Hq|congruence|done|lia|].
    exists st'. split_and!; [done|congruence|done|done].
Qed.

(** An event that no firing re-arms fires at the first tick that reaches
    its priority and is out of the queue from then on. *)
Lemma single_fire_track (fuel : nat) (r : ref) (p : num) (nows : list num) :
  Forall (λ now, is_fin now = true) nows →
  ∀ st e, well_formed st → r ∈ queue st → heap st !! r = Some e →
    to_num (priority e) = p →
    (∀ now, num_leb p now = true → rearms now e = false) →
    length (queue st) < fuel →
    ∃ st', run_ticks fuel nows st = Returned tt st' ∧
           fired st' r
           = fired st r ++ take 1 (filter (λ now, num_leb p now = true) nows) ∧
           (r ∈ queue st' ↔ filter (λ now, num_leb p now = true) nows = []).
Proof.
  induction 1 as [|now nows Hnow Hnows IH];
    intros st e Hwf Hr He Hp Hre Hfuel.
  - exists st. split; [done|]. by rewrite filter_nil, app_nil_r.
  - destruct (clock_tick_spec fuel now st Hnow Hwf Hfuel)
      as (st1 & Hrun & Hp1 & _).
    destruct Hp1 as [Pwf _ Plen _ Pidle Pdue]. simpl. rewrite Hrun.
    assert (Hdue : due now st r = num_leb p now).
    { unfold due, item_priority. by rewrite He, Hp. }
    rewrite filter_cons. destruct (num_leb p now) eqn:Hle.
    + rewrite decide_True by done. simpl.
      destruct (Pdue r e Hr Hdue He) as [Hf Hq].
      rewrite (Hre now Hle) in Hq. destruct Hq as [_ Hq].
      destruct (absent_never_fires fuel r nows Hnows st1)
        as (st' & Hrun' & Hf' & _ & Hq' & _); [done|done|lia|].
      exists st'. split_and!; [done| |done].
      rewrite Hf', Hf. reflexivity.
    + rewrite decide_False by (by intros ?).
      destruct (Pidle r (or_intror Hdue)) as (Hh & Hq & Hf).
      destruct (IH st1 e) as (st' & Hrun' & Hf' & Hq');
        [done|by apply Hq|congruence|done|done|lia|].
      exists st'. split_and!; [done|congruence|done].
Qed.

(** An event that its first firing re-arms for [+Infinity] fires at the
    first tick that reaches its priority and stays in the queue. *)
Lemma parked_track (fuel : nat) (r : ref) (p : num) (nows : list num) :
  Forall (λ now, is_fin now = true) nows →
  ∀ st e, well_formed st → r ∈ queue st → heap st !! r = Some e →
    to_num (priority e) = p →
    (∀ now, is_fin now = true →
       rearms now e = true ∧
       calcPriority now (to_num (interval e)) (timeScale st) = PInf) →
    length (queue st) < fuel →
    ∃ st', run_ticks fuel nows st = Returned tt st' ∧
           fired st' r
           = fired st r ++ take 1 (filter (λ now, num_leb p now = true) nows) ∧
           r ∈ queue st'.
Proof.
  induction 1 as [|now nows Hnow Hnows IH];
    intros st e Hwf Hr He Hp Hre Hfuel.
  - exists st. split_and!; [done| |done]. by rewrite filter_nil, app_nil_r.
  - destruct (clock_tick_spec fuel now st Hnow Hwf Hfuel)
      as (st1 & Hrun & Hp1 & _).
    destruct Hp1 as [Pwf Pts Plen _ Pidle Pdue]. simpl. rewrite Hrun.
    assert (Hdue : due now st r = num_leb p now).
    { unfold due, item_priority. by rewrite He, Hp. }
    rewrite filter_cons. destruct (num_leb p now) eqn:Hle.
    + rewrite decide_True by done. simpl.
      destruct (Pdue r e Hr Hdue He) as [Hf Hq].
      destruct (Hre now Hnow) as [Hrearm Hinf].
      rewrite Hrearm in Hq. destruct Hq as [Hh Hq].
      destruct (never_due_track fuel r PInf nows Hnows) with
        (st := st1) (e := rearmed now (timeScale st) e)
        as (st' & Hrun' & Hf' & _ & Hq'); [|done|done|done|done|lia|].
      { eapply Forall_impl; [exact Hnows|]. by intros [] ?. }
      exists st'. split_and!; [done| |done].
      rewrite Hf', Hf. reflexivity.
    + rewrite decide_False by (by intros ?).
      destruct (Pidle r (or_intror Hdue)) as (Hh & Hq & Hf).
      destruct (IH st1 e) as (st' & Hrun' & Hf' & Hq');
        [done|by apply Hq|congruence|done|by rewrite Pts|lia|].
      exists st'. split_and!; [done|congruence|done].
Qed.

Lemma num_mul_inf_pos (ts : num) :
  num_pos (num_mul PInf ts) = true → num_mul PInf ts = PInf.
Proof.
  destruct ts as [x| | |]; simpl; try done. unfold inf_times.
  destruct (Qsign_pos x); [done|]. by destruct (Qsign_neg x).
Qed.

(** X13. A queued repeat whose interval is [+Infinity] (what [1 / freq]
    is for a frequency of [+0]) and which has no end fires at the first
    tick that reaches its priority and at no other tick, and it never
    leaves the queue, where its first firing re-arms it for
    [+Infinity]. *)
Theorem infinite_interval_fires_once (fuel : nat) (r : ref)
    (e : eventSpec) (st : scheduler) (nows : list num) :
  well_formed st → r ∈ queue st → heap st !! r = Some e →
  type e = TRepeat → interval e = Some PInf → end_ e = Some PInf →
  Forall (λ now, is_fin now = true) nows →
  length (queue st) < fuel →
  ∃ st',
    run_ticks fuel nows st = Returned tt st' ∧
    fired st' r
    = fired st r
      ++ take 1 (filter (λ now, num_leb (to_num (priority e)) now = true)
                   nows) ∧
    r ∈ queue st'.
Proof.
  intros Hwf Hr He Hty Hiv Hen Hnows Hfuel.
  destruct (item_ok_elem st r Hwf Hr) as (e' & He' & Hok).
  assert (e' = e) as -> by congruence.
  apply queued_ok_inv in Hok as (_ & _ & Hpos). specialize (Hpos Hty).
  rewrite Hiv in Hpos. simpl to_num in Hpos.
  apply (parked_track fuel r (to_num (priority e)) nows Hnows st e);
    [done|done|done|done| |done].
  intros now Hnow. unfold rearms, calcPriority.
  rewrite Hen, Hiv, bool_decide_eq_true_2 by done. simpl to_num.
  rewrite (num_mul_inf_pos _ Hpos). by destruct now.
Qed.

Lemma infinite_interval_fires_once_witness :
  ∃ st',
    run_ticks 2 [Fin 1; Fin 2; Fin 3; Fin 4] repeat_parked = Returned tt st' ∧
    fired st' 0 = [Fin 2] ∧ 0 ∈ queue st'.
Proof.
  apply (infinite_interval_fires_once 2 0 parked_spec repeat_parked
           [Fin 1; Fin 2; Fin 3; Fin 4]).
  - split; [apply NoDup_singleton|]. apply Forall_singleton. reflexivity.
  - apply list_elem_of_here.
  - reflexivity.
  - reflexivity.
  - reflexivity.
  - reflexivity.
  - repeat constructor.
  - simpl. lia.
Defined.

(** X14. The end of a repeat is tested only after its callback has run:
    a queued repeat whose end is not later than its priority still fires,
    once, at the first tick that reaches its priority; it is then dropped
    and never fires again. *)
Theorem repeat_past_end_fires_once (fuel : nat) (r : ref) (e : eventSpec)
    (st : scheduler) (nows : list num) :
  well_formed st → r ∈ queue st → heap st !! r = Some e →
  type e = TRepeat →
  num_leb (to_num (end_ e)) (to_num (priority e)) = true →
  Forall (λ now, is_fin now = true) nows →
  length (queue st) < fuel →
  ∃ st', run_ticks fuel nows st = Returned tt st' ∧
    fired st' r
    = fired st r
      ++ take 1 (filter (λ now, num_leb (to_num (priority e)) now = true)
                   nows) ∧
    (r ∈ queue st' ↔
     filter (λ now, num_leb (to_num (priority e)) now = true) nows = []).
Proof.
  intros Hwf Hr He Hty Hend Hnows Hfuel.
  apply (single_fire_track fuel r (to_num (priority e)) nows Hnows st e);
    try done.
  intros now Hle. unfold rearms, num_gtb, num_ltb.
  rewrite (num_leb_trans _ _ _ Hend Hle). simpl.
  by rewrite !andb_false_r.
Qed.

Lemma repeat_past_end_fires_once_witness :
  ∃ st', run_ticks 2 [Fin 2; Fin 3; Fin 4] repeat_ended = Returned tt st' ∧
         fired st' 0 = [Fin 3] ∧
         (0 ∈ queue st' ↔ [Fin 3; Fin 4] = []).
Proof.
  apply (repeat_past_end_fires_once 2 0 ended_spec repeat_ended
           [Fin 2; Fin 3; Fin 4]).
  - split; [apply NoDup_singleton|]. apply Forall_singleton. reflexivity.
  - apply list_elem_of_here.
  - reflexivity.
  - reflexivity.
  - reflexivity.
  - repeat constructor.
  - simpl. lia.
Defined.

(** ** Callbacks that call [schedule] *)

(** X15. Nothing catches what a callback throws: when the callback of
    the event at the head of the queue schedules a specification without
    a callback, [tick] ends with that error; the firing event has been
    invoked and is out of the queue (a repeat is not re-armed), and the
    rest of the queue is as it was, not drained. *)
Theorem throwing_callback_aborts_tick (n : nat) (r b : ref) (now : num)
    (st : scheduler) (e eb : eventSpec) (rest : list action) :
  PriorityQueue.peek (item_priority (heap st)) (queue st) = Some r →
  due now st r = true →
  heap st !! r = Some e → callback e = Some (ActSchedule (Obj b) :: rest) →
  heap st !! b = Some eb → callback eb = None →
  ∃ st',
    tick (S (S n)) now st
    = Thrown (Error "No callback was specified for scheduled event: " b) st' ∧
    queue st' = PriorityQueue.remove r (queue st) ∧
    trace st' = trace st ++ [(r, now)] ∧
    (NoDup (queue st) → r ∉ queue st').
Proof.
  intros Hpeek Hdue He Hcb Heb Hnone. unfold tick.
  cbn [berg_scheduler_tick]. rewrite Hpeek. fold (due now st r).
  rewrite Hdue, (PriorityQueueFacts.pop_peek _ _ _ Hpeek).
  cbn [evaluateScoreEvent set_queue heap]. rewrite He, Hcb.
  cbn [run_script run_action resolve]. unfold scheduleEvent_with. simpl.
  rewrite Heb.
  rewrite validate_no_callback by (by rewrite normalize_callback).
  eexists. split; [done|]. simpl. split_and!; [done..|].
  intros Hnd. by apply PriorityQueueFacts.remove_NoDup.
Qed.

Lemma throwing_callback_aborts_tick_witness :
  ∃ st',
    tick 2 (Fin 1) repeat_throwing
    = Thrown (Error "No callback was specified for scheduled event: " 1) st' ∧
    queue st' = [] ∧ trace st' = [(0, Fin 1)].
Proof.
  destruct (throwing_callback_aborts_tick 0 0 1 (Fin 1) repeat_throwing
              (set_callback (Some [ActSchedule (Obj 1)]) self_clearing)
              no_callback [])
    as (st' & Hrun & Hq & Ht & _); [reflexivity..|].
  exists st'. split; [exact Hrun|]. split; [exact Hq|exact Ht].
Defined.

(** X16. A callback may schedule from inside its own evaluation: when
    the callback of an event that is not a repeat schedules a valid
    specification whose priority is later than the clock (its own event
    included), the evaluation returns with that specification pushed at
    the end of the queue and no invocation other than its own. *)
Theorem callback_schedules_later (n : nat) (r b : ref) (now ts : num)
    (st : scheduler) (e eb : eventSpec) :
  heap st !! r = Some e → type e ≠ TRepeat →
  callback e = Some [ActSchedule (Obj b)] →
  heap st !! b = Some eb → queues_later st b = true →
  ∃ st', evaluateScoreEvent (S n) r now ts st = Returned tt st' ∧
         queue st' = queue st ++ [b] ∧
         trace st' = trace st ++ [(r, now)] ∧
         heap st' !! b = Some (submitted st eb) ∧
         ∀ x, x ≠ b → heap st' !! x = heap st !! x.
Proof.
  intros He Hty Hcb Heb Hl. cbn [evaluateScoreEvent]. rewrite He, Hcb.
  cbn [run_script run_action resolve].
  change (scheduleEvent_with (evaluateScoreEvent n) b (record_call r now st))
    with (scheduleEvent n b (record_call r now st)).
  rewrite (scheduleEvent_later n b (record_call r now st) eb Heb Hl).
  eexists. split; [done|].
  assert (Hrq : ∀ s, (∃ e', heap s !! r = Some e' ∧ type e' ≠ TRepeat) →
                     requeue r now ts s = s).
  { intros s (e' & He' & Hty'). unfold requeue. rewrite He'.
    by rewrite (bool_decide_eq_false_2 (_ = TRepeat)). }
  rewrite Hrq.
  - simpl. split_and!; [done|done|by rewrite lookup_insert_eq|].
    intros x Hx. by rewrite lookup_insert_ne.
  - simpl. destruct (decide (r = b)) as [->|Hne].
    + rewrite lookup_insert_eq. eexists. split; [done|].
      assert (eb = e) as -> by congruence. unfold submitted. simpl.
      by apply normalize_not_repeat.
    + rewrite lookup_insert_ne by done. eauto.
Qed.

Lemma callback_schedules_later_witness :
  ∃ st', evaluateScoreEvent 1 4 (Fin 0) (Fin 1)
           (set_heap (<[4 := set_callback (Some [ActSchedule (Obj 2)])
                                (once_at 0)]> (heap three_pending))
              three_pending)
         = Returned tt st' ∧
         queue st' = [2] ∧ trace st' = [(4, Fin 0)].
Proof.
  destruct (callback_schedules_later 0 4 2 (Fin 0) (Fin 1)
              (set_heap (<[4 := set_callback (Some [ActSchedule (Obj 2)])
                                   (once_at 0)]> (heap three_pending))
                 three_pending)
              (set_callback (Some [ActSchedule (Obj 2)]) (once_at 0))
              (once_at 7))
    as (st' & Hrun & Hq & Ht & _).
  - reflexivity.
  - discriminate.
  - reflexivity.
  - reflexivity.
  - reflexivity.
  - exists st'. split; [exact Hrun|]. split; [exact Hq|exact Ht].
Defined.

(** ** The time assertion of the tests *)

(** X17. [berg.test.assertTimeEqual] does not depend on which of the two
    times is called actual and which expected; it fails as soon as one
    of its arguments is [NaN]; it never holds for a negative tolerance;
    and when it holds for one tolerance it holds for every larger
    one. *)
Theorem assertTimeEqual_symmetric (actual expected tolerance : num) :
  assertTimeEqual actual expected tolerance
  = assertTimeEqual expected actual tolerance ∧
  (is_nan actual || is_nan expected || is_nan tolerance = true →
   assertTimeEqual actual expected tolerance = false) ∧
  (num_ltb tolerance (Fin 0) = true →
   assertTimeEqual actual expected tolerance = false) ∧
  (∀ wider, assertTimeEqual actual expected tolerance = true →
     num_leb tolerance wider = true →
     assertTimeEqual actual expected wider = true).
Proof.
  split_and!.
  - unfold assertTimeEqual, num_gtb, num_ltb.
    destruct actual as [x| | |], expected as [y| | |]; try reflexivity.
    cbn [is_nan negb andb num_leb].
    destruct (Qle_bool x y) eqn:Hxy, (Qle_bool y x) eqn:Hyx;
      cbn [negb]; try reflexivity.
    + apply Qle_bool_iff in Hxy, Hyx.
      destruct tolerance as [t| | |]; try reflexivity.
      cbn [num_sub num_neg num_add num_leb].
      apply Qleb_comp; [lra|reflexivity].
    + apply not_true_iff_false in Hxy, Hyx.
      rewrite Qle_bool_iff in Hxy, Hyx. lra.
  - unfold assertTimeEqual, num_gtb, num_ltb.
    destruct actual as [x| | |], expected as [y| | |],
      tolerance as [t| | |]; try done;
      cbn [is_nan negb andb num_leb]; by destruct (Qle_bool _ _).
  - unfold assertTimeEqual, num_gtb, num_ltb.
    destruct actual as [x| | |], expected as [y| | |],
      tolerance as [t| | |]; try done;
      cbn [is_nan negb andb num_leb];
      try (by destruct (Qle_bool _ _)).
    rewrite negb_true_iff, <- not_true_iff_false, Qle_bool_iff.
    intros Ht. apply not_true_iff_false.
    destruct (Qle_bool x y) eqn:Hxy;
      cbn [negb num_sub num_neg num_add num_leb]; rewrite Qle_bool_iff.
    + apply Qle_bool_iff in Hxy. lra.
    + apply not_true_iff_false in Hxy. rewrite Qle_bool_iff in Hxy. lra.
  - intros wider. unfold assertTimeEqual. apply num_leb_trans.
Qed.

Lemma assertTimeEqual_symmetric_witness :
  assertTimeEqual (Fin (21 # 10)) (Fin 2) (Fin (1 # 5)) = true ∧
  assertTimeEqual (Fin 2) (Fin (21 # 10)) (Fin (1 # 5)) = true ∧
  assertTimeEqual (Fin 2) NaN (Fin 1) = false ∧
  assertTimeEqual (Fin 2) (Fin 2) (Fin (-1)) = false ∧
  assertTimeEqual (Fin (21 # 10)) (Fin 2) (Fin 1) = true.
Proof.
  destruct (assertTimeEqual_symmetric (Fin (21 # 10)) (Fin 2) (Fin (1 # 5)))
    as (Hsym & _ & _ & Hwider).
  split; [reflexivity|]. split; [rewrite <- Hsym; reflexivity|].
  destruct (assertTimeEqual_symmetric (Fin 2) NaN (Fin 1)) as (_ & Hnan & _).
  split; [apply Hnan; reflexivity|].
  destruct (assertTimeEqual_symmetric (Fin 2) (Fin 2) (Fin (-1)))
    as (_ & _ & Hneg & _).
  split; [apply Hneg; reflexivity|].
  apply (Hwider (Fin 1)); reflexivity.
Defined.

(** ** The [repeat] wrapper *)

(** X18. [repeat(freq, callback, time, end)] with a non-zero numeric
    frequency and a priority later than the clock builds a new object,
    pushes it at the end of the queue, invokes nothing and returns it.
    The object is a Repeat specification whose interval is [1 / freq],
    whose end is the given end plus the clock time ([+Infinity] when no
    end is given), scheduled at the clock time. *)
Theorem repeat_allocates (fuel : nat) (f : Q) (t : num) (en : option num)
    (script : list action) (st : scheduler) :
  ¬ (f == 0)%Q →
  num_gtb (calcPriority (clock st) t (timeScale st)) (clock st) = true →
  ∃ r st' e',
    repeat fuel (Some (Fin f)) (Some script) (Some t) en st = Returned r st' ∧
    heap st !! r = None ∧
    queue st' = queue st ++ [r] ∧ trace st' = trace st ∧
    (∀ x, x ≠ r → heap st' !! x = heap st !! x) ∧
    heap st' !! r = Some e' ∧
    type e' = TRepeat ∧ callback e' = Some script ∧
    interval e' = Some (Fin (1 / f)) ∧
    end_ e' = Some (match en with
                    | Some v => num_add v (clock st)
                    | None => PInf
                    end) ∧
    scheduledAt e' = Some (clock st) ∧
    priority e' = Some (calcPriority (clock st) t (timeScale st)).
Proof.
  intros Hf [Hlater _]%num_gtb_later. unfold repeat, new_object.
  assert (Hf0 : Qeq_bool f 0 = false).
  { apply not_true_iff_false. by rewrite Qeq_bool_iff. }
  set (r := fresh (dom (heap st))).
  set (e0 := {| type := TRepeat; time := Some t; freq := Some (Fin f);
                end_ := en; callback := Some script; scheduledAt := None;
                priority := None; interval := None |}).
  set (st1 := set_heap (<[r := e0]> (heap st)) st).
  assert (He0 : heap st1 !! r = Some e0) by apply lookup_insert_eq.
  assert (Hnorm : normalize (clock st1) e0
                  = {| type := TRepeat; time := Some t; freq := Some (Fin f);
                       end_ := Some (match en with
                                     | Some v => num_add v (clock st)
                                     | None => PInf
                                     end);
                       callback := Some script;
                       scheduledAt := Some (clock st); priority := None;
                       interval := Some (Fin (1 / f)) |}).
  { unfold normalize, expandRepeatingEventSpec. simpl. rewrite Hf0.
    by destruct en. }
  rewrite (scheduleEvent_later fuel r st1 e0 He0).
  2:{ unfold queues_later. rewrite He0. apply andb_true_iff. split.
      - apply bool_decide_eq_true. by rewrite Hnorm.
      - apply negb_true_iff. unfold submitted. rewrite Hnorm. exact Hlater. }
  eexists r, _, _. split; [done|]. simpl. split_and!; try done.
  - apply not_elem_of_dom, is_fresh.
  - intros x Hx. by rewrite !lookup_insert_ne.
  - apply lookup_insert_eq.
  - unfold submitted. by rewrite Hnorm.
  - unfold submitted. by rewrite Hnorm.
  - unfold submitted. by rewrite Hnorm.
  - unfold submitted. by rewrite Hnorm.
  - unfold submitted. by rewrite Hnorm.
  - unfold submitted. by rewrite Hnorm.
Qed.

Lemma repeat_allocates_witness :
  ∃ r st' e',
    repeat 0 (Some (Fin 4)) (Some []) (Some (Fin 1)) (Some (Fin 9))
      three_queued = Returned r st' ∧
    heap three_queued !! r = None ∧
    queue st' = [0; 1; 2] ++ [r] ∧ trace st' = [] ∧
    (∀ x, x ≠ r → heap st' !! x = heap three_queued !! x) ∧
    heap st' !! r = Some e' ∧
    type e' = TRepeat ∧ callback e' = Some [] ∧
    interval e' = Some (Fin (1 / 4)) ∧
    end_ e' = Some (num_add (Fin 9) (Fin 0)) ∧
    scheduledAt e' = Some (Fin 0) ∧
    priority e' = Some (calcPriority (Fin 0) (Fin 1) (Fin 1)).
Proof.
  apply (repeat_allocates 0 4 (Fin 1) (Some (Fin 9)) [] three_queued).
  - discriminate.
  - reflexivity.
Defined.

(** ** Edge of the clock *)

Lemma num_leb_nan (a : num) : num_leb a NaN = false.
Proof. by destruct a. Qed.

(** X19. A tick whose time is [NaN] fires nothing and changes nothing,
    whatever is queued: no priority is [<= NaN]. *)
Theorem tick_nan_is_noop (fuel : nat) (st : scheduler) :
  0 < fuel → tick fuel NaN st = Returned tt st.
Proof.
  intros Hfuel. destruct fuel as [|n]; [lia|]. unfold tick.
  cbn [berg_scheduler_tick].
  destruct (PriorityQueue.peek _ _); [|done]. by rewrite num_leb_nan.
Qed.

Lemma tick_nan_is_noop_witness :
  tick 1 NaN three_queued = Returned tt three_queued.
Proof. apply (tick_nan_is_noop 1 three_queued). lia. Defined.

(** ** Cancelling another event from a callback *)

(** X20. When the event at the head of the queue is not a repeat and its
    callback clears another queued event [b], the rest of the scheduler
    being well formed, [tick] fires the head and returns; [b] is not
    invoked by this tick, even if it was due at it, and is out of the
    queue when the tick returns. *)
Theorem callback_clears_other (fuel : nat) (r b : ref) (now : num)
    (st : scheduler) (e : eventSpec) :
  PriorityQueue.peek (item_priority (heap st)) (queue st) = Some r →
  due now st r = true → heap st !! r = Some e → type e ≠ TRepeat →
  callback e = Some [ActClear (Obj b)] → b ≠ r →
  NoDup (queue st) → well_formed (clear r st) → is_fin now = true →
  length (queue st) < fuel →
  ∃ st', tick fuel now st = Returned tt st' ∧
         fired st' r = fired st r ++ [now] ∧
         fired st' b = fired st b ∧ (b ∉ queue st') ∧ (r ∉ queue st').
Proof.
  intros Hpeek Hdue He Hty Hcb Hne Hnd Hwf Hnow Hfuel.
  pose proof (PriorityQueueFacts.peek_elem _ _ _ Hpeek) as Hin.
  pose proof (PriorityQueueFacts.length_remove_elem r _ Hin) as Hlen.
  destruct fuel as [|[|n]]; [lia|lia|]. unfold tick.
  cbn [berg_scheduler_tick]. rewrite Hpeek. fold (due now st r).
  rewrite Hdue, (PriorityQueueFacts.pop_peek _ _ _ Hpeek).
  change (set_queue (PriorityQueue.remove r (queue st)) st)
    with (clear r st).
  cbn [evaluateScoreEvent]. simpl heap. rewrite He, Hcb.
  cbn [run_script run_action resolve]. unfold requeue. simpl heap.
  rewrite He. rewrite (bool_decide_eq_false_2 (_ = TRepeat)) by done.
  cbn [andb].
  set (st1 := clear b (record_call r now (clear r st))).
  destruct (clear_well_formed b (record_call r now (clear r st)) Hwf)
    as [Hwf1 Hb1]. fold st1 in Hwf1, Hb1.
  assert (Hr1 : r ∉ queue st1).
  { intros Hr. apply (PriorityQueueFacts.remove_subseteq b) in Hr.
    by apply (PriorityQueueFacts.remove_NoDup r (queue st) Hnd). }
  destruct (tick_drain now n Hnow (queue st1) st1)
    as (st' & Hrun & Hp & _); [|done|done|].
  { subst st1. simpl.
    pose proof (PriorityQueueFacts.length_remove b
                  (PriorityQueue.remove r (queue st))). lia. }
  exists st'. split; [exact Hrun|]. destruct Hp as [_ _ _ _ Pidle _].
  destruct (Pidle r (or_introl Hr1)) as (_ & Hqr & Hfr).
  destruct (Pidle b (or_introl Hb1)) as (_ & Hqb & Hfb).
  assert (Hf1 : ∀ x, fired st1 x
                     = if decide (x = r) then fired st x ++ [now]
                       else fired st x).
  { intros x. apply (fired_record_call r x now (clear r st)). }
  split_and!.
  - by rewrite Hfr, Hf1, decide_True.
  - by rewrite Hfb, Hf1, decide_False.
  - by rewrite Hqb.
  - by rewrite Hqr.
Qed.

Lemma callback_clears_other_witness :
  ∃ st', tick 4 (Fin 5) clearing_head = Returned tt st' ∧
         fired st' 0 = [Fin 5] ∧ fired st' 1 = [] ∧
         (1 ∉ queue st') ∧ (0 ∉ queue st').
Proof.
  apply (callback_clears_other 4 0 1 (Fin 5) clearing_head
           (set_callback (Some [ActClear (Obj 1)])
              (submitted init (once_at 5)))).
  - reflexivity.
  - reflexivity.
  - reflexivity.
  - discriminate.
  - reflexivity.
  - discriminate.
  - decide_closed.
  - split; [decide_closed|]. repeat constructor.
  - reflexivity.
  - simpl. lia.
Defined.
